(** * pgmpy.models.continuous.JointGaussianDistribution

    A shallow embedding of the class [JointGaussianDistribution]
    (src/pgmpy/models/continuous/JointGaussianDistribution.py) and the
    properties of its four operations: construction, the cached
    [precision_matrix] property, [marginalize] and [copy].

    Python objects live in a store addressed by natural numbers, so that
    sharing between instances (the [variables] list, the cached precision
    matrix) is visible.  numpy matrices are rows of scalars together with
    their shape; scalars are taken in an arbitrary field, i.e. arithmetic is
    exact.  [np.linalg.inv] is a parameter of the development. *)

From Stdlib Require Import String.
From HB Require Import structures.
From mathcomp Require Import boot.
From mathcomp Require Import ssralg matrix rat.
From mathcomp Require order ssrnum.

Set Implicit Arguments.
Unset Strict Implicit.
Unset Printing Implicit Defensive.

Import GRing.Theory.
Local Open Scope ring_scope.

(** Python strings compared with [==]. *)
HB.instance Definition _ := hasDecEq.Build string String.eqb_spec.

(** ** Generic helpers *)

(** A list comprehension whose body may raise: the first failure aborts the
    whole comprehension. *)
Definition omapM (A B : Type) (f : A -> option B) (s : seq A) : option (seq B) :=
  foldr (fun a acc => if f a is Some b then omap (cons b) acc else None)
        (Some [::]) s.

(** [range(n)], [set(s)], [a - b] on sets of integers and [sorted(s)].  A set
    is represented by a duplicate-free enumeration of its members; [sorted]
    makes the result independent of the enumeration. *)
Definition range (n : nat) : seq nat := iota 0 n.
Definition py_set (s : seq nat) : seq nat := undup s.
Definition set_sub (a b : seq nat) : seq nat := [seq i <- a | i \notin b].
Definition py_sorted (s : seq nat) : seq nat := sort leq s.

(** ** Exceptions and the store monad *)

(** The exceptions the module can raise.  [ValueError] is raised by the
    dimension checks of [__init__], by [np.reshape] and by [list.index];
    [TypeError] by the string guard of [marginalize]; [LinAlgError] by
    [np.linalg.inv]; [IndexError] by indexing out of range.  [BadReference]
    marks a read through an address that does not hold an object of the
    expected class; it has no Python counterpart. *)
Inductive exn := ValueError | TypeError | IndexError | LinAlgError | BadReference.

Inductive result (A : Type) := Return of A | Raise of exn.
Arguments Raise {A} e.

Definition addr := nat.

(** An instance of the class: its four attributes hold references. *)
Record JGD := MkJGD {
  variables : addr;
  mean_vector : addr;
  covariance_matrix : addr;
  _precision_matrix : option addr
}.

Definition set_variables (d : JGD) (a : addr) :=
  MkJGD a (mean_vector d) (covariance_matrix d) (_precision_matrix d).
Definition set_mean_vector (d : JGD) (a : addr) :=
  MkJGD (variables d) a (covariance_matrix d) (_precision_matrix d).
Definition set_covariance_matrix (d : JGD) (a : addr) :=
  MkJGD (variables d) (mean_vector d) a (_precision_matrix d).
Definition set_precision_matrix (d : JGD) (p : option addr) :=
  MkJGD (variables d) (mean_vector d) (covariance_matrix d) p.

Section Model.

(** Identifiers of random variables: any hashable Python object. *)
Variable ident : eqType.
(** Scalars held by the numeric buffers. *)
Variable F : fieldType.

(** *** numpy matrices and array-likes *)

(** A two-dimensional array: its shape and its rows.  The shape is kept
    apart from the rows because a matrix with no row still has a column
    count ([(0, 1)] for the mean of a zero-dimensional distribution). *)
Record matrix := Matrix { nrows : nat; ncols : nat; rows : seq (seq F) }.

Definition shape (m : matrix) : nat * nat := (nrows m, ncols m).

Definition wf_matrix (m : matrix) : bool :=
  (size (rows m) == nrows m) && all (fun r => size r == ncols m) (rows m).

(** What the constructor accepts for [mean_vector] and [covariance_matrix]:
    a one-dimensional or a two-dimensional array. *)
Inductive array_like := Array1 of seq F | Array2 of matrix.

(** [len(a)]: the extent of the first axis. *)
Definition len (a : array_like) : nat :=
  match a with Array1 xs => size xs | Array2 m => nrows m end.

(** The elements of [a] in row-major order. *)
Definition ravel (a : array_like) : seq F :=
  match a with Array1 xs => xs | Array2 m => flatten (rows m) end.

(** [np.reshape(a, (n, 1))]: raises [ValueError] unless [a] holds exactly
    [n] elements. *)
Definition np_reshape_n1 (a : array_like) (n : nat) : option matrix :=
  if size (ravel a) == n then Some (Matrix n 1 [seq [:: x] | x <- ravel a])
  else None.

(** [np.matrix(a)]: a fresh two-dimensional matrix; a one-dimensional input
    becomes a single row. *)
Definition np_matrix (a : array_like) : matrix :=
  match a with Array1 xs => Matrix 1 (size xs) [:: xs] | Array2 m => m end.

(** [m[idx]] for a list of row numbers: [IndexError] when one is out of
    range. *)
Definition take_rows (m : matrix) (idx : seq nat) : option matrix :=
  if all (fun i => i < nrows m) idx
  then Some (Matrix (size idx) (ncols m) [seq nth [::] (rows m) i | i <- idx])
  else None.

(** [m[np.ix_(I, J)]]: the entries at the Cartesian product of [I] and [J]. *)
Definition take_ix (m : matrix) (I J : seq nat) : option matrix :=
  if all (fun i => i < nrows m) I && all (fun j => j < ncols m) J
  then Some (Matrix (size I) (size J)
               [seq [seq nth 0 (nth [::] (rows m) i) j | j <- J] | i <- I])
  else None.

(** [s.index(x)]: the first position of [x]; [ValueError] when absent. *)
Definition list_index (s : seq ident) (x : ident) : option nat :=
  if x \in s then Some (index x s) else None.

(** *** The store *)

Inductive pyobj :=
  | PyNone
  | PyList of seq ident
  | PyMatrix of matrix
  | PyJGD of JGD.

Definition heap := seq pyobj.

Definition deref (h : heap) (a : addr) : pyobj := nth PyNone h a.

Definition M (A : Type) := heap -> result A * heap.

Definition ret (A : Type) (a : A) : M A := fun h => (Return a, h).
Definition raise (A : Type) (e : exn) : M A := fun h => (Raise e, h).
Definition bind (A B : Type) (c : M A) (k : A -> M B) : M B :=
  fun h => match c h with
           | (Return a, h1) => k a h1
           | (Raise e, h1) => (Raise e, h1)
           end.

Local Notation "x <- c ;; k" := (bind c (fun x => k))
  (at level 100, c at next level, right associativity).
Local Notation "c ;;; k" := (bind c (fun _ => k))
  (at level 100, right associativity).

Definition lift (A : Type) (e : exn) (o : option A) : M A :=
  if o is Some a then ret a else raise A e.

(** A new object gets the next free address. *)
Definition alloc (o : pyobj) : M addr := fun h => (Return (size h), rcons h o).

Definition get_list (a : addr) : M (seq ident) :=
  fun h => if deref h a is PyList s then (Return s, h) else (Raise BadReference, h).
Definition get_matrix (a : addr) : M matrix :=
  fun h => if deref h a is PyMatrix m then (Return m, h) else (Raise BadReference, h).
Definition get_jgd (a : addr) : M JGD :=
  fun h => if deref h a is PyJGD d then (Return d, h) else (Raise BadReference, h).

(** Attribute assignment [obj.attr = value] on the instance at [a]. *)
Definition setattr (a : addr) (f : JGD -> JGD) : M unit :=
  fun h => if deref h a is PyJGD d then (Return tt, set_nth PyNone h a (PyJGD (f d)))
           else (Raise BadReference, h).

(** In-place mutation of the object at [a], as by [lst[i] = x] or
    [m[i, j] = x]: the object changes, every reference to it stays. *)
Definition mutate (a : addr) (o : pyobj) : M unit :=
  fun h => (Return tt, set_nth PyNone h a o).

(** [lst[i] = x] on the list at [a]. *)
Definition list_setitem (a : addr) (i : nat) (x : ident) : M unit :=
  fun h => if deref h a is PyList s then
             if i < size s then mutate a (PyList (set_nth x s i x)) h
             else (Raise IndexError, h)
           else (Raise BadReference, h).

(** *** The class *)

(** [np.linalg.inv]: the inverse, or [None] for [LinAlgError]. *)
Variable np_linalg_inv : matrix -> option matrix.

(** [JointGaussianDistribution(variables, mean_vector, covariance_matrix)].
    [variables] is stored as given, by reference.  [np.matrix] copies its
    argument, so the two numeric attributes are new objects and the arrays
    are passed here by value.  The instance is entered in the store once
    [__init__] has run to its end: when [__init__] raises, no reference to
    the instance survives. *)
Definition __init__ (variables : addr) (mean_vector covariance_matrix : array_like)
    : M addr :=
  V <- get_list variables ;;
  let n := size V in
  if len mean_vector != n then raise addr ValueError else
  mu <- lift ValueError (np_reshape_n1 mean_vector n) ;;
  a_mu <- alloc (PyMatrix (np_matrix (Array2 mu))) ;;
  a_sigma <- alloc (PyMatrix (np_matrix covariance_matrix)) ;;
  if shape (np_matrix covariance_matrix) != (n, n) then raise addr ValueError else
  alloc (PyJGD (MkJGD variables a_mu a_sigma None)).

(** The property [precision_matrix]: the reference held by the cache, after
    filling the cache when it is unset. *)
Definition precision_matrix (self : addr) : M addr :=
  d <- get_jgd self ;;
  match _precision_matrix d with
  | Some p => ret p
  | None =>
      sigma <- get_matrix (covariance_matrix d) ;;
      p <- lift LinAlgError (np_linalg_inv sigma) ;;
      a <- alloc (PyMatrix p) ;;
      setattr self (fun d => set_precision_matrix d (Some a)) ;;;
      ret a
  end.

(** [copy(self)] *)
Definition copy (self : addr) : M addr :=
  d <- get_jgd self ;;
  mu <- get_matrix (mean_vector d) ;;
  sigma <- get_matrix (covariance_matrix d) ;;
  copy_distribution <- __init__ (variables d) (Array2 mu) (Array2 sigma) ;;
  setattr copy_distribution
    (fun c => set_precision_matrix c (_precision_matrix d)) ;;;
  ret copy_distribution.

(** The argument [variables] of [marginalize]: a string, or a list (or other
    array-like) of identifiers. *)
Inductive py_arg := PyStr of string | PySeq of seq ident.

(** [marginalize(self, variables, inplace)]; the result is [None] or the
    reference to the new instance. *)
Definition marginalize (self : addr) (target_variables : py_arg) (inplace : bool)
    : M (option addr) :=
  match target_variables with
  | PyStr _ => raise (option addr) TypeError
  | PySeq targets =>
      distribution <- (if inplace then ret self else copy self) ;;
      d <- get_jgd distribution ;;
      V <- get_list (variables d) ;;
      var_indexes <- lift ValueError (omapM (list_index V) targets) ;;
      s <- get_jgd self ;;
      Vs <- get_list (variables s) ;;
      let index_to_keep :=
        py_sorted (set_sub (py_set (range (size Vs))) (py_set var_indexes)) in
      V' <- lift IndexError (omapM (onth V) index_to_keep) ;;
      a_V <- alloc (PyList V') ;;
      setattr distribution (fun d => set_variables d a_V) ;;;
      d1 <- get_jgd distribution ;;
      mu <- get_matrix (mean_vector d1) ;;
      mu' <- lift IndexError (take_rows mu index_to_keep) ;;
      a_mu <- alloc (PyMatrix mu') ;;
      setattr distribution (fun d => set_mean_vector d a_mu) ;;;
      d2 <- get_jgd distribution ;;
      sigma <- get_matrix (covariance_matrix d2) ;;
      sigma' <- lift IndexError (take_ix sigma index_to_keep index_to_keep) ;;
      a_sigma <- alloc (PyMatrix sigma') ;;
      setattr distribution (fun d => set_covariance_matrix d a_sigma) ;;;
      setattr distribution (fun d => set_precision_matrix d None) ;;;
      ret (if inplace then None else Some distribution)
  end.

End Model.

Arguments deref : simpl never.

Notation "x <- c ;; k" := (bind c (fun x => k))
  (at level 100, c at next level, right associativity).
Notation "c ;;; k" := (bind c (fun _ => k))
  (at level 100, right associativity).

(** ** Reading a distribution out of the store *)

Section Values.

Variable ident : eqType.
Variable F : fieldType.

Local Notation matrix := (matrix F).
Local Notation heap := (heap ident F).

(** The distribution an instance denotes: the values its four attributes
    refer to. *)
Record dist_value := DistValue {
  vars : seq ident;
  mean : matrix;
  cov : matrix;
  cache : option matrix
}.

Definition cache_view (h : heap) (p : option addr) : option (option matrix) :=
  match p with
  | None => Some None
  | Some a => if deref h a is PyMatrix P then Some (Some P) else None
  end.

Definition view (h : heap) (a : addr) : option dist_value :=
  if deref h a is PyJGD d then
    if deref h (variables d) is PyList V then
      if deref h (mean_vector d) is PyMatrix mu then
        if deref h (covariance_matrix d) is PyMatrix sigma then
          omap (DistValue V mu sigma) (cache_view h (_precision_matrix d))
        else None
      else None
    else None
  else None.

(** The invariant of the data model: [n] variables, an [n x 1] mean and an
    [n x n] covariance. *)
Definition consistent (v : dist_value) : bool :=
  [&& wf_matrix (mean v), shape (mean v) == (size (vars v), 1),
      wf_matrix (cov v) & shape (cov v) == (size (vars v), size (vars v))].

(** A distribution of the data model: consistent dimensions and pairwise
    distinct variables. *)
Definition wf_dist (v : dist_value) : bool := uniq (vars v) && consistent v.

(** *** The marginal, as the specification words it *)

(** Which positions of [V] survive the removal of [R]. *)
Definition keep_mask (V R : seq ident) : bitseq := [seq x \notin R | x <- V].

(** The principal submatrix at the positions selected by [b]. *)
Definition principal_submatrix (b : bitseq) (m : matrix) : matrix :=
  Matrix (count id b) (count id b) [seq mask b r | r <- mask b (rows m)].

(** The sub-vector of a column at the positions selected by [b]. *)
Definition sub_vector (b : bitseq) (m : matrix) : matrix :=
  Matrix (count id b) (ncols m) (mask b (rows m)).

(** N(mu, Sigma) over V with R removed: V \ R in the order of V, mu and
    Sigma restricted to the kept positions, no cached precision. *)
Definition marginal (v : dist_value) (R : seq ident) : dist_value :=
  let b := keep_mask (vars v) R in
  DistValue [seq x <- vars v | x \notin R]
            (sub_vector b (mean v))
            (principal_submatrix b (cov v))
            None.

(** The distribution that [marginalize] leaves behind: in the receiver when
    it returns nothing, in the returned instance otherwise. *)
Definition marginalize_result (h : heap) (self : addr) (R : seq ident)
    (inplace : bool) : option dist_value :=
  match marginalize self (PySeq R) inplace h with
  | (Return r, h') => view h' (odflt self r)
  | (Raise _, _) => None
  end.

End Values.

(** ** Matrix inverses *)

Section Inverse.

Variable ident : eqType.
Variable F : fieldType.

Local Notation matrix := (matrix F).
Local Notation heap := (heap ident F).

(** The [n x n] matrix a numpy matrix stands for. *)
Definition mx_of (n : nat) (m : matrix) : 'M[F]_n :=
  \matrix_(i < n, j < n) nth 0 (nth [::] (rows m) i) j.

Definition matrix_of_mx (n : nat) (A : 'M[F]_n) : matrix :=
  Matrix n n [seq [seq A i j | j <- enum 'I_n] | i <- enum 'I_n].

Definition square (n : nat) (m : matrix) : bool :=
  wf_matrix m && (shape m == (n, n)).

(** [P] is the inverse of [S]: both are square of the same order and
    [P * S] is the identity. *)
Definition inverse_of (P S : matrix) : Prop :=
  [/\ square (nrows S) S, square (nrows S) P
    & mx_of (nrows S) P *m mx_of (nrows S) S = 1%:M].

Definition invertible (S : matrix) : Prop := exists P, inverse_of P S.

(** Modelled from the spec: the linear-algebra library is not part of the
    repository and is assumed correct and exact (section 6):
    [np.linalg.inv] returns the inverse, and raises [LinAlgError] exactly
    when there is none. *)
Definition exact (inv : matrix -> option matrix) : Prop :=
  forall S, match inv S with
            | Some P => inverse_of P S
            | None => ~ invertible S
            end.

(** Modelled from the spec: an exact [np.linalg.inv], built on the inverse
    of the matrix algebra, which shows that the assumption [exact] can be
    met. *)
Definition exact_inv (S : matrix) : option matrix :=
  if square (nrows S) S && (mx_of (nrows S) S \in unitmx)
  then Some (matrix_of_mx (invmx (mx_of (nrows S) S)))
  else None.

(** The matrices [[1]] and [[0]] of order one. *)
Definition unit_matrix : matrix := Matrix 1 1 [:: [:: 1]].
Definition null_matrix : matrix := Matrix 1 1 [:: [:: 0]].

(** *** Calls of the public operations *)

Inductive call :=
  | NewList of seq ident
  | Construct of addr & array_like F & array_like F
  | Precision of addr
  | Marginalize of addr & py_arg ident & bool
  | Copy of addr.

(** The store a call leaves behind, whether it returns or raises.
    [NewList] is the caller building the list of variables it will pass to
    the constructor. *)
Definition run_call (inv : matrix -> option matrix) (c : call) (h : heap) : heap :=
  match c with
  | NewList xs => rcons h (PyList _ xs)
  | Construct vs m s => (__init__ vs m s h).2
  | Precision self => (precision_matrix inv self h).2
  | Marginalize self arg inplace => (marginalize self arg inplace h).2
  | Copy self => (copy self h).2
  end.

(** The stores reachable from the empty store by calls. *)
Inductive reachable (inv : matrix -> option matrix) : heap -> Prop :=
  | reachable_empty : reachable inv [::]
  | reachable_call h c : reachable inv h -> reachable inv (run_call inv c h).

End Inverse.

(** ** Stores met in the proofs *)

Section Stores.

Variable ident : eqType.
Variable F : fieldType.

Local Notation matrix := (matrix F).
Local Notation pyobj := (pyobj ident F).
Local Notation heap := (heap ident F).
Local Notation M := (M ident F).

Implicit Types (h : heap) (a b : addr) (o : pyobj).

Definition is_obj o : bool := if o is PyNone then false else true.

Definition is_jgd o : bool := if o is PyJGD _ then true else false.

(** The store after a successful [copy]: the two matrices rebuilt by
    [np.matrix], then the new instance. *)
Definition copied_heap h (d : JGD) (mu sigma : matrix) : heap :=
  rcons (rcons (rcons h (PyMatrix _ mu)) (PyMatrix _ sigma))
        (PyJGD _ _ (MkJGD (variables d) (size h) (size h).+1
                          (_precision_matrix d))).

(** The statements of [marginalize] that follow the choice of
    [distribution]. *)
Definition marginalize_body (self : addr) (targets : seq ident) (inplace : bool)
    (distribution : addr) : M (option addr) :=
  d <- get_jgd distribution ;;
  V <- get_list (variables d) ;;
  var_indexes <- lift ValueError (omapM (list_index V) targets) ;;
  s <- get_jgd self ;;
  Vs <- get_list (variables s) ;;
  let index_to_keep :=
    py_sorted (set_sub (py_set (range (size Vs))) (py_set var_indexes)) in
  V' <- lift IndexError (omapM (onth V) index_to_keep) ;;
  a_V <- alloc (PyList _ V') ;;
  setattr distribution (fun d => set_variables d a_V) ;;;
  d1 <- get_jgd distribution ;;
  mu <- get_matrix (mean_vector d1) ;;
  mu' <- lift IndexError (take_rows mu index_to_keep) ;;
  a_mu <- alloc (PyMatrix _ mu') ;;
  setattr distribution (fun d => set_mean_vector d a_mu) ;;;
  d2 <- get_jgd distribution ;;
  sigma <- get_matrix (covariance_matrix d2) ;;
  sigma' <- lift IndexError (take_ix sigma index_to_keep index_to_keep) ;;
  a_sigma <- alloc (PyMatrix _ sigma') ;;
  setattr distribution (fun d => set_covariance_matrix d a_sigma) ;;;
  setattr distribution (fun d => set_precision_matrix d None) ;;;
  ret (if inplace then None else Some distribution).

(** The store after the four assignments of [marginalize]: the instance at
    [a] refers to three new objects and has no cached precision. *)
Definition marginalized_heap h a (V' : seq ident) (mu' sigma' : matrix) : heap :=
  rcons (rcons (rcons
    (set_nth (PyNone _ _) h a
       (PyJGD _ _ (MkJGD (size h) (size h).+1 (size h).+2 None)))
    (PyList _ V')) (PyMatrix _ mu')) (PyMatrix _ sigma').

(** The store [marginalize] ends in, by mode. *)
Definition marginalize_heap h (self : addr) (d : JGD) (v : dist_value ident F)
    (R : seq ident) (inplace : bool) : heap :=
  let w := marginal v R in
  if inplace then marginalized_heap h self (vars w) (mean w) (cov w)
  else marginalized_heap (copied_heap h d (mean v) (cov v)) (size h).+2
         (vars w) (mean w) (cov w).

(** The store after [precision_matrix] filled the cache of the instance
    at [self]. *)
Definition cached_heap h (self : addr) (d : JGD) (P : matrix) : heap :=
  rcons (set_nth (PyNone _ _) h self
           (PyJGD _ _ (set_precision_matrix d (Some (size h)))))
        (PyMatrix _ P).

(** [c] relates the store it starts in to the store it ends in by [R],
    whatever it returns or raises. *)
Definition preserves (R : heap -> heap -> Prop) (A : Type) (c : M A) : Prop :=
  forall h, R h (c h).2.

(** Nothing but the object at [a] is modified; objects may be added. *)
Definition only_at (a : addr) h h' : Prop :=
  size h <= size h' /\
  forall b, b < size h -> b != a -> deref h' b = deref h b.

(** Every instance keeps the object its [covariance_matrix] refers to. *)
Definition keeps_cov h h' : Prop :=
  forall a d, deref h a = PyJGD _ _ d ->
  exists2 d', deref h' a = PyJGD _ _ d' &
              covariance_matrix d' = covariance_matrix d.

(** Every instance keeps its covariance object or has lost its cache. *)
Definition clears h h' : Prop :=
  forall a d, deref h a = PyJGD _ _ d ->
  exists2 d', deref h' a = PyJGD _ _ d' &
              covariance_matrix d' = covariance_matrix d \/
              _precision_matrix d' = None.

(** Lists and matrices are never modified; an instance stays an
    instance. *)
Definition stable h h' : Prop :=
  forall b, match deref h b with
            | PyNone => True
            | PyJGD _ => is_jgd (deref h' b)
            | o => deref h' b = o
            end.

Section CacheInvariant.

Variable inv : matrix -> option matrix.

(** The cache of [d], when set, holds what [np.linalg.inv] returns for the
    covariance [d] refers to. *)
Definition cache_ok h (d : JGD) : Prop :=
  forall p, _precision_matrix d = Some p ->
  exists P S, [/\ deref h p = PyMatrix _ P,
                  deref h (covariance_matrix d) = PyMatrix _ S
                & inv S = Some P].

Definition heap_ok h : Prop :=
  forall a d, deref h a = PyJGD _ _ d -> cache_ok h d.

(** One step of an operation: every instance of the new store has a valid
    cache, or has the covariance and the cache of the instance that was at
    its address. *)
Definition inv_step h h' : Prop :=
  stable h h' /\
  forall a d', deref h' a = PyJGD _ _ d' ->
    cache_ok h' d' \/
    exists d, [/\ deref h a = PyJGD _ _ d,
                  covariance_matrix d' = covariance_matrix d
                & _precision_matrix d' = _precision_matrix d].

End CacheInvariant.

End Stores.

(** ** Entries, sequences of calls and the dimension invariant *)

Section Observations.

Variable ident : eqType.
Variable F : fieldType.

Local Notation matrix := (matrix F).
Local Notation heap := (heap ident F).

(** [m[i, j]], read as [np.ix_] and [mx_of] read it. *)
Definition entry (m : matrix) (i j : nat) : F := nth 0 (nth [::] (rows m) i) j.

(** [mean_vector[variables.index(x), 0]] and
    [covariance_matrix[variables.index(x), variables.index(y)]]: the mean of
    the variable [x] and the covariance of [x] and [y], as a caller looks
    them up. *)
Definition mean_of (v : dist_value ident F) (x : ident) : F :=
  entry (mean v) (index x (vars v)) 0.

Definition cov_of (v : dist_value ident F) (x y : ident) : F :=
  entry (cov v) (index x (vars v)) (index y (vars v)).

Definition symmetric (m : matrix) : Prop :=
  forall i j, entry m i j = entry m j i.

(** Whether a call outcome is a return. *)
Definition returns (A : Type) (r : result A) : bool :=
  if r is Return _ then true else false.

(** A numpy array is rectangular: its rows agree with its shape. *)
Definition rectangular (a : array_like F) : bool :=
  if a is Array2 m then wf_matrix m else true.

Definition rectangular_call (c : call ident F) : bool :=
  if c is Construct _ m s then rectangular m && rectangular s else true.

(** The store after a sequence of calls, the first call first. *)
Definition run_calls (inv : matrix -> option matrix) (cs : seq (call ident F))
    (h : heap) : heap :=
  foldl (fun h c => run_call inv c h) h cs.

(** The three data attributes of an instance refer to a list and two
    matrices of matching dimensions. *)
Definition fields_ok (h : heap) (d : JGD) : Prop :=
  exists V mu sigma,
    [/\ deref h (variables d) = PyList _ V,
        deref h (mean_vector d) = PyMatrix _ mu,
        deref h (covariance_matrix d) = PyMatrix _ sigma
      & consistent (DistValue V mu sigma None)].

Definition dims_ok (h : heap) : Prop :=
  forall a d, deref h a = PyJGD _ _ d -> fields_ok h d.

(** [c = self.copy(); c.marginalize(R); return c] *)
Definition copy_then_marginalize (self : addr) (R : seq ident)
    : M ident F (option addr) :=
  c <- copy self ;;
  marginalize c (PySeq R) true ;;;
  ret (Some c).

End Observations.

(** ** Positive semi-definite matrices *)

Section Definite.

Import order ssrnum.

Variable F : realFieldType.


End Definite.

(** ** The example of the docstrings *)

Definition ex_variables : seq string := [:: "x1"; "x2"; "x3"]%string.

Definition ex_mean : matrix rat := Matrix 3 1 [:: [:: 1]; [:: -3]; [:: 4]].

Definition ex_cov : matrix rat :=
  Matrix 3 3 [:: [:: 4; 2; -2]; [:: 2; 5; -5]; [:: -2; -5; 8]].

Definition ex_value : dist_value string rat :=
  DistValue ex_variables ex_mean ex_cov None.

(** The store after
    [dis = JGD(['x1', 'x2', 'x3'], [[1], [-3], [4]], [[4, 2, -2], ...])]:
    the list at 0, the instance at 3. *)
Definition ex_heap : heap string rat :=
  [:: PyList _ ex_variables; PyMatrix _ ex_mean; PyMatrix _ ex_cov;
      PyJGD _ _ (MkJGD 0 1 2 None)].

(** Two array-likes for the mean of three variables: one with three rows of
    two columns, [[[1, 0], [-3, 0], [4, 0]]], and the row [[[1, -3, 4]]]. *)
Definition ex_wide_mean : array_like rat :=
  Array2 (Matrix 3 2 [:: [:: 1; 0]; [:: -3; 0]; [:: 4; 0]]).

Definition ex_row_mean : array_like rat :=
  Array2 (Matrix 1 3 [:: [:: 1; -3; 4]]).

(** A distribution over one variable, with covariance [[1]] and with the
    singular covariance [[0]]. *)
Definition unit_value : dist_value string rat :=
  DistValue [:: "x"%string] (null_matrix rat) (unit_matrix rat) None.

Definition unit_heap : heap string rat :=
  [:: PyList _ [:: "x"%string]; PyMatrix _ (null_matrix rat);
      PyMatrix _ (unit_matrix rat); PyJGD _ _ (MkJGD 0 1 2 None)].

Definition null_value : dist_value string rat :=
  DistValue [:: "x"%string] (null_matrix rat) (null_matrix rat) None.

Definition null_heap : heap string rat :=
  [:: PyList _ [:: "x"%string]; PyMatrix _ (null_matrix rat);
      PyMatrix _ (null_matrix rat); PyJGD _ _ (MkJGD 0 1 2 None)].

(** A store reached by three calls: the caller builds the list of
    variables, constructs the distribution of the docstrings and reads its
    precision matrix. *)
Definition reached_heap : heap string rat :=
  run_call (@exact_inv rat) (@Precision string rat 3)
    (run_call (@exact_inv rat)
       (@Construct string rat 0 (Array2 ex_mean) (Array2 ex_cov))
       (run_call (@exact_inv rat) (@NewList string rat ex_variables) [::])).

(** The store after [c = dis.copy()] on the example: the copy is the
    instance at 6. *)
Definition ex_copy_heap : heap string rat :=
  ex_heap ++ [:: PyMatrix _ ex_mean; PyMatrix _ ex_cov;
                 PyJGD _ _ (MkJGD 0 4 5 None)].

(** The precision matrix printed in the docstrings, as fractions. *)
Definition ex_precision : matrix rat :=
  Matrix 3 3 [:: [:: 5 / 16; -1 / 8; 0]; [:: -1 / 8; 7 / 12; 1 / 3];
                 [:: 0; 1 / 3; 1 / 3]].

(** The example after [dis.precision_matrix] has filled the cache. *)
Definition ex_cached_heap : heap string rat :=
  [:: PyList _ ex_variables; PyMatrix _ ex_mean; PyMatrix _ ex_cov;
      PyJGD _ _ (MkJGD 0 1 2 (Some 4)); PyMatrix _ ex_precision].

(** The store after [c = dis.copy()] on it: the copy is the instance
    at 7. *)
Definition ex_cached_copy_heap : heap string rat :=
  ex_cached_heap ++ [:: PyMatrix _ ex_mean; PyMatrix _ ex_cov;
                        PyJGD _ _ (MkJGD 0 5 6 (Some 4))].

(** The variables of the copy at 6 after [dis.variables[0] = 'y'] on the
    original at 3, whose [variables] is the list at 0. *)
Definition vars_after_setitem : option (seq string) :=
  omap (@vars _ _) (view (list_setitem 0 0 "y"%string ex_copy_heap).2 6).

(** A distribution whose two variables carry the same name, which the
    constructor does not refuse. *)
Definition dup_value : dist_value string rat :=
  DistValue [:: "a"; "a"]%string (Matrix 2 1 [:: [:: 1]; [:: 2]])
            (Matrix 2 2 [:: [:: 1; 0]; [:: 0; 3]]) None.

Definition dup_heap : heap string rat :=
  [:: PyList _ [:: "a"; "a"]%string; PyMatrix _ (Matrix 2 1 [:: [:: 1]; [:: 2]]);
      PyMatrix _ (Matrix 2 2 [:: [:: 1; 0]; [:: 0; 3]]);
      PyJGD _ _ (MkJGD 0 1 2 None)].

(** Four calls: the list of variables, the distribution of the docstrings,
    [dis.marginalize(['x3'])] and [dis.copy()]. *)
Definition ex_calls : seq (call string rat) :=
  [:: NewList _ ex_variables;
      Construct _ 0 (Array2 ex_mean) (Array2 ex_cov);
      Marginalize _ 3 (PySeq [:: "x3"%string]) true;
      Copy _ _ 3].

(** A store that holds an empty list of variables, and nothing else. *)
Definition no_variables_heap : heap string rat := [:: PyList _ [::]].

(** ** Properties *)

Section Properties.

Variable ident : eqType.
Variable F : fieldType.

Local Notation matrix := (matrix F).
Local Notation pyobj := (pyobj ident F).
Local Notation heap := (heap ident F).
Local Notation M := (M ident F).

Local Notation unit_matrix := (unit_matrix F).
Local Notation null_matrix := (null_matrix F).
Local Notation preserves := (@preserves ident F).
Local Notation keeps_cov := (@keeps_cov ident F).
Local Notation clears := (@clears ident F).
Local Notation stable := (@stable ident F).

Implicit Types (h : heap) (a b : addr) (o : pyobj) (arg : py_arg ident).

Lemma bind_ext (A B : Type) (c : M A) (k1 k2 : A -> M B) h :
  (forall x h1, k1 x h1 = k2 x h1) -> bind c k1 h = bind c k2 h.
Proof. by rewrite /bind => E; case: (c h) => [[x|e] h1]. Qed.

Lemma deref_rcons h o a :
  deref (rcons h o) a =
  if a < size h then deref h a else if a == size h then o else PyNone _ _.
Proof. by rewrite /deref nth_rcons. Qed.

Lemma deref_set_nth h a o b :
  deref (set_nth (PyNone _ _) h a o) b = if b == a then o else deref h b.
Proof. by rewrite /deref nth_set_nth. Qed.

Lemma omapM_list_index (V R : seq ident) :
  omapM (list_index V) R =
  if all (mem V) R then Some [seq index x V | x <- R] else None.
Proof.
elim: R => [|x R IH] //=; rewrite IH /list_index.
by case: (x \in V) => //=; case: (all _ R).
Qed.

(** *** Reading and writing the store *)

Lemma deref_obj_lt h a : is_obj (deref h a) -> a < size h.
Proof.
by rewrite /deref ltnNge; case: leqP => // /(nth_default (PyNone _ _)) ->.
Qed.

Lemma deref_rcons_obj h o a :
  is_obj (deref h a) -> deref (rcons h o) a = deref h a.
Proof. by move/deref_obj_lt => Ha; rewrite deref_rcons Ha. Qed.

Lemma deref_rcons_new h o : deref (rcons h o) (size h) = o.
Proof. by rewrite deref_rcons ltnn eqxx. Qed.

Lemma deref_rcons_lt h o a : a < size h -> deref (rcons h o) a = deref h a.
Proof. by rewrite deref_rcons => ->. Qed.

Lemma deref_set_nth_same h a o : deref (set_nth (PyNone _ _) h a o) a = o.
Proof. by rewrite deref_set_nth eqxx. Qed.

Lemma deref_set_nth_other h a o b :
  is_jgd (deref h a) -> ~~ is_jgd (deref h b) ->
  deref (set_nth (PyNone _ _) h a o) b = deref h b.
Proof. by rewrite deref_set_nth; case: eqP => // -> ->. Qed.

Lemma size_set_nth_lt h a o :
  a < size h -> size (set_nth (PyNone _ _) h a o) = size h.
Proof. by rewrite size_set_nth => /maxn_idPr. Qed.

Lemma set_nth_rcons_lt h a o o' :
  a < size h ->
  set_nth (PyNone _ _) (rcons h o') a o = rcons (set_nth (PyNone _ _) h a o) o'.
Proof.
elim: h a => [|x h IH] [|a] //= Ha; congr cons; exact: IH.
Qed.

Lemma set_nth_rcons_last h o o' :
  set_nth (PyNone _ _) (rcons h o') (size h) o = rcons h o.
Proof. by elim: h => [|x h IH] //=; rewrite IH. Qed.

Lemma set_nth_twice h a o o' :
  set_nth (PyNone _ _) (set_nth (PyNone _ _) h a o') a o =
  set_nth (PyNone _ _) h a o.
Proof. by rewrite set_set_nth eqxx. Qed.

(** *** Views *)

Lemma view_inv h a v :
  view h a = Some v ->
  exists d, [/\ deref h a = PyJGD _ _ d,
                deref h (variables d) = PyList _ (vars v),
                deref h (mean_vector d) = PyMatrix _ (mean v),
                deref h (covariance_matrix d) = PyMatrix _ (cov v) &
                cache_view h (_precision_matrix d) = Some (cache v)].
Proof.
rewrite /view; case Ea: (deref h a) => [| |  |d] //.
case EV: (deref h _) => [|V| |] //; case Em: (deref h _) => [| |mu|] //.
case Es: (deref h _) => [| |sigma|] //.
by case Ec: (cache_view _ _) => [c|] //= [<-]; exists d.
Qed.

Lemma view_intro h a d V mu sigma c :
  deref h a = PyJGD _ _ d ->
  deref h (variables d) = PyList _ V ->
  deref h (mean_vector d) = PyMatrix _ mu ->
  deref h (covariance_matrix d) = PyMatrix _ sigma ->
  cache_view h (_precision_matrix d) = Some c ->
  view h a = Some (DistValue V mu sigma c).
Proof. by rewrite /view => -> -> -> -> ->. Qed.

(** *** Running the constructor *)

Lemma reshape_column (m : matrix) (n : nat) :
  wf_matrix m -> shape m = (n, 1) -> np_reshape_n1 (Array2 m) n = Some m.
Proof.
case: m => r c rs /andP[/= /eqP Hs Hr] [Er Ec]; rewrite /np_reshape_n1 /=.
move: Hs Hr; rewrite {r}Er {c}Ec => Hs Hr.
have E : [seq [:: x] | x <- flatten rs] = rs.
  elim: rs Hr {Hs} => [|row rs IH] //= /andP[H1 /IH {}IH].
  by case: row H1 => [|x [|y row]] //= _; rewrite IH.
by rewrite -(size_map (fun x => [:: x]) (flatten rs)) E Hs eqxx.
Qed.

Lemma init_run h variables V mean_vector covariance_matrix mu :
  deref h variables = PyList _ V ->
  len mean_vector = size V ->
  np_reshape_n1 mean_vector (size V) = Some mu ->
  shape (np_matrix covariance_matrix) = (size V, size V) ->
  __init__ variables mean_vector covariance_matrix h =
  (Return (size h).+2,
   rcons (rcons (rcons h (PyMatrix _ mu))
                (PyMatrix _ (np_matrix covariance_matrix)))
         (PyJGD _ _ (MkJGD variables (size h) (size h).+1 None))).
Proof.
move=> HV Hl Hr Hs.
rewrite /__init__ /bind /get_list HV Hl eqxx /= Hr /= Hs eqxx /=.
by rewrite /alloc !size_rcons.
Qed.

(** *** Running [copy] *)

Lemma copy_run h self d V mu sigma :
  deref h self = PyJGD _ _ d ->
  deref h (variables d) = PyList _ V ->
  deref h (mean_vector d) = PyMatrix _ mu ->
  deref h (covariance_matrix d) = PyMatrix _ sigma ->
  wf_matrix mu -> shape mu = (size V, 1) -> shape sigma = (size V, size V) ->
  copy self h = (Return (size h).+2, copied_heap h d mu sigma).
Proof.
move=> Hd HV Hm Hs wfm shm shs.
have Hl : len (Array2 mu) = size V by case: shm.
rewrite /copy /bind /get_jgd Hd /get_matrix Hm Hs.
rewrite (@init_run _ _ _ _ (Array2 sigma) _ HV Hl (reshape_column wfm shm) shs).
rewrite /setattr /=.
set h2 := rcons (rcons h _) _.
have <- : size h2 = (size h).+2 by rewrite !size_rcons.
by rewrite deref_rcons_new set_nth_rcons_last /copied_heap !size_rcons.
Qed.

(** *** Index computations of [marginalize] *)

(** [sorted] does not depend on the order in which a set is enumerated. *)
Lemma py_sorted_perm (s1 s2 : seq nat) :
  perm_eq s1 s2 -> py_sorted s1 = py_sorted s2.
Proof.
by move=> E; apply/perm_sortP => //;
  [apply: leq_total | apply: leq_trans | apply: anti_leq].
Qed.

Lemma index_to_keep_filter (n : nat) (idx : seq nat) :
  py_sorted (set_sub (py_set (range n)) (py_set idx)) =
  [seq i <- iota 0 n | i \notin idx].
Proof.
rewrite /py_sorted /set_sub /py_set /range (undup_id (iota_uniq 0 n)).
have E : (fun i => i \notin undup idx) =1 (fun i => i \notin idx).
  by move=> i; rewrite mem_undup.
rewrite (eq_filter E).
by rewrite sorted_sort ?sorted_filter ?iota_sorted //; apply: leq_trans.
Qed.

Lemma keep_mask_iota (V R : seq ident) :
  uniq V -> all (mem V) R ->
  [seq i \notin [seq index x V | x <- R] | i <- iota 0 (size V)] =
  keep_mask V R.
Proof.
case E: V => [|x0 V0] //; rewrite -{V0}E => uV /allP RV.
rewrite /keep_mask -[in RHS](mkseq_nth x0 V) /mkseq -map_comp.
apply/eq_in_map => i; rewrite mem_iota add0n /= => iV.
congr negb; apply/mapP/idP => [[x xR ->]|iR].
  by rewrite nth_index //; apply: RV.
by exists (nth x0 V i) => //; rewrite index_uniq.
Qed.

Lemma map_nth_filter_iota (T : Type) (x0 : T) (s : seq T) (p : pred nat) :
  [seq nth x0 s i | i <- [seq i <- iota 0 (size s) | p i]] =
  mask [seq p i | i <- iota 0 (size s)] s.
Proof. by rewrite filter_mask map_mask; congr mask; exact: mkseq_nth. Qed.

Lemma all_filter_iota (n : nat) (p : pred nat) :
  all (fun i => i < n) [seq i <- iota 0 n | p i].
Proof. by apply/allP => i; rewrite mem_filter mem_iota add0n => /and3P[]. Qed.

Lemma omapM_onth (T : Type) (x0 : T) (s : seq T) (idx : seq nat) :
  all (fun i => i < size s) idx ->
  omapM (onth s) idx = Some [seq nth x0 s i | i <- idx].
Proof.
elim: idx => [|i idx IH] //= /andP[Hi /IH ->] /=.
have: isSome (onth s i) by rewrite onthTE.
by case E: (onth s i) => [x|] // _; rewrite (@onth_nth _ x0 _ _ _ E).
Qed.

Lemma omapM_onth_filter (T : Type) (s : seq T) (p : pred nat) :
  omapM (onth s) [seq i <- iota 0 (size s) | p i] =
  Some (mask [seq p i | i <- iota 0 (size s)] s).
Proof.
case E: s => [|x0 s0] //; rewrite -{s0}E.
by rewrite (omapM_onth x0) ?all_filter_iota // map_nth_filter_iota.
Qed.

Lemma size_filter_iota (n : nat) (p : pred nat) :
  size [seq i <- iota 0 n | p i] = count id [seq p i | i <- iota 0 n].
Proof. by rewrite size_filter count_map. Qed.

Lemma take_rows_filter (m : matrix) (p : pred nat) :
  size (rows m) = nrows m ->
  take_rows m [seq i <- iota 0 (nrows m) | p i] =
  Some (sub_vector [seq p i | i <- iota 0 (nrows m)] m).
Proof.
move=> Hs; rewrite /take_rows all_filter_iota /sub_vector size_filter_iota.
by rewrite -Hs map_nth_filter_iota.
Qed.

Lemma take_ix_filter (m : matrix) (p : pred nat) :
  wf_matrix m -> nrows m = ncols m ->
  take_ix m [seq i <- iota 0 (nrows m) | p i] [seq i <- iota 0 (nrows m) | p i] =
  Some (principal_submatrix [seq p i | i <- iota 0 (nrows m)] m).
Proof.
case/andP => /eqP Hs /allP Hr Hsq.
rewrite /take_ix {3}Hsq -{1 2}Hsq !all_filter_iota /= /principal_submatrix.
rewrite size_filter_iota; congr (Some (Matrix _ _ _)).
rewrite (map_comp (fun r => [seq nth 0 r j | j <- _]) (nth [::] (rows m))).
have -> : [seq nth [::] (rows m) i | i <- iota 0 (nrows m) & p i] =
          mask [seq p i | i <- iota 0 (nrows m)] (rows m).
  by rewrite -Hs map_nth_filter_iota.
apply/eq_in_map => r /mem_mask /Hr /eqP Hr'.
by rewrite Hsq -Hr' map_nth_filter_iota.
Qed.

(** *** Running [marginalize] *)

Lemma marginalizeE (self : addr) (R : seq ident) (inplace : bool) :
  marginalize (F:=F) self (PySeq R) inplace =
  bind (if inplace then ret self else copy self)
       (marginalize_body self R inplace).
Proof. by []. Qed.

Lemma marginalize_body_run h self s Vs R inplace a d V mu sigma :
  deref h a = PyJGD _ _ d ->
  deref h (variables d) = PyList _ V ->
  deref h (mean_vector d) = PyMatrix _ mu ->
  deref h (covariance_matrix d) = PyMatrix _ sigma ->
  deref h self = PyJGD _ _ s ->
  deref h (variables s) = PyList _ Vs ->
  size Vs = size V ->
  size (rows mu) = nrows mu -> nrows mu = size V ->
  wf_matrix sigma -> shape sigma = (size V, size V) ->
  all (mem V) R ->
  let b := [seq i \notin [seq index x V | x <- R] | i <- iota 0 (size V)] in
  marginalize_body self R inplace a h =
  (Return (if inplace then None else Some a),
   marginalized_heap h a (mask b V) (sub_vector b mu) (principal_submatrix b sigma)).
Proof.
move=> Hd HV Hm Hs Hself HVs EVs Hrm Enm wfs [Enr Enc] HR b.
have Ha : a < size h by apply: deref_obj_lt; rewrite Hd.
have Hlm : mean_vector d < size h by apply: deref_obj_lt; rewrite Hm.
have Hls : covariance_matrix d < size h by apply: deref_obj_lt; rewrite Hs.
have Nm : (mean_vector d == a) = false.
  by apply/eqP => E; move: Hm; rewrite E Hd.
have Ns : (covariance_matrix d == a) = false.
  by apply/eqP => E; move: Hs; rewrite E Hd.
have Etr : take_rows mu
    [seq i <- iota 0 (size V) | i \notin [seq index x V | x <- R]] =
    Some (sub_vector b mu).
  by rewrite -Enm take_rows_filter // Enm.
have Eix : take_ix sigma
    [seq i <- iota 0 (size V) | i \notin [seq index x V | x <- R]]
    [seq i <- iota 0 (size V) | i \notin [seq index x V | x <- R]] =
    Some (principal_submatrix b sigma).
  by rewrite -Enr take_ix_filter ?Enr ?Enc.
rewrite /marginalize_body /bind /get_jgd Hd /get_list HV omapM_list_index HR.
rewrite /lift /ret Hself /= HVs /= !index_to_keep_filter EVs omapM_onth_filter -/b.
have Ha1 : a < (size h).+1 by apply: ltnW.
have Ha2 : a < (size h).+2 by apply: ltnW.
have Hls1 : covariance_matrix d < (size h).+1 by apply: ltnW.
have Hls2 : covariance_matrix d < (size h).+2 by apply: ltnW.
rewrite /alloc /setattr /get_matrix /=.
rewrite deref_rcons_lt // Hd /= set_nth_rcons_lt //.
rewrite deref_rcons_lt ?size_set_nth_lt // deref_set_nth_same /=.
rewrite deref_rcons_lt ?size_set_nth_lt // deref_set_nth Nm Hm /= Etr /=.
rewrite !deref_rcons_lt ?size_rcons ?size_set_nth_lt // deref_set_nth_same /=.
rewrite !set_nth_rcons_lt ?size_rcons ?size_set_nth_lt // set_nth_twice.
rewrite !deref_rcons_lt ?size_rcons ?size_set_nth_lt // deref_set_nth_same /=.
rewrite !deref_rcons_lt ?size_rcons ?size_set_nth_lt // deref_set_nth Ns Hs /=.
rewrite Eix /=.
rewrite !deref_rcons_lt ?size_rcons ?size_set_nth_lt // deref_set_nth_same /=.
rewrite !set_nth_rcons_lt ?size_rcons ?size_set_nth_lt // set_nth_twice.
rewrite !deref_rcons_lt ?size_rcons ?size_set_nth_lt // deref_set_nth_same /=.
by rewrite !set_nth_rcons_lt ?size_rcons ?size_set_nth_lt // set_nth_twice.
Qed.

Lemma deref_marginalized h a V' mu' sigma' b :
  a < size h ->
  deref (marginalized_heap h a V' mu' sigma') b =
  if b < size h then
    if b == a then PyJGD _ _ (MkJGD (size h) (size h).+1 (size h).+2 None)
    else deref h b
  else if b == size h then PyList _ V'
  else if b == (size h).+1 then PyMatrix _ mu'
  else if b == (size h).+2 then PyMatrix _ sigma'
  else PyNone _ _.
Proof.
move=> Ha; rewrite /marginalized_heap !deref_rcons !size_rcons.
rewrite size_set_nth_lt // deref_set_nth !ltnS.
case: (ltngtP b (size h)) => [Hb|Hb|->].
- by rewrite (leqW (ltnW Hb)).
- case: (ltngtP b (size h).+1) => [Hb1|Hb1|Eb] //.
  by rewrite ltnS leqNgt Hb in Hb1.
- by rewrite leqnSn.
Qed.

Lemma size_marginalized h a V' mu' sigma' :
  a < size h -> size (marginalized_heap h a V' mu' sigma') = (size h).+3.
Proof. by move=> Ha; rewrite /marginalized_heap !size_rcons size_set_nth_lt. Qed.

Lemma deref_copied h d mu sigma b :
  deref (copied_heap h d mu sigma) b =
  if b < size h then deref h b
  else if b == size h then PyMatrix _ mu
  else if b == (size h).+1 then PyMatrix _ sigma
  else if b == (size h).+2
       then PyJGD _ _ (MkJGD (variables d) (size h) (size h).+1
                             (_precision_matrix d))
  else PyNone _ _.
Proof.
rewrite /copied_heap !deref_rcons !size_rcons !ltnS.
case: (ltngtP b (size h)) => [Hb|Hb|->].
- by rewrite (leqW (ltnW Hb)).
- case: (ltngtP b (size h).+1) => [Hb1|Hb1|Eb] //.
  by rewrite ltnS leqNgt Hb in Hb1.
- by rewrite leqnSn.
Qed.

Lemma size_copied h d mu sigma : size (copied_heap h d mu sigma) = (size h).+3.
Proof. by rewrite /copied_heap !size_rcons. Qed.

Lemma next_addr (n : nat) :
  [/\ (n.+1 < n) = false, (n.+2 < n) = false, (n.+1 == n) = false,
      (n.+2 == n) = false & (n.+2 == n.+1) = false].
Proof.
split; first by rewrite ltnNge leqnSn.
- by rewrite ltnNge leqW.
- by rewrite gtn_eqF.
- by rewrite gtn_eqF // leqW.
- by rewrite gtn_eqF.
Qed.

Lemma view_frame h h' c v :
  view h c = Some v ->
  (forall b, is_obj (deref h b) -> (b == c) || ~~ is_jgd (deref h b) ->
             deref h' b = deref h b) ->
  view h' c = Some v.
Proof.
case/view_inv => d [Hd HV Hm Hs Hc] E; case: v HV Hm Hs Hc => V mu s c0 /=.
move=> HV Hm Hs Hc; apply: (@view_intro _ _ d).
- by rewrite E ?Hd ?eqxx.
- by rewrite E ?HV ?orbT.
- by rewrite E ?Hm ?orbT.
- by rewrite E ?Hs ?orbT.
case: (_precision_matrix d) Hc => [p|] //=.
case Ep: (deref h p) => [| |P|] // [<-].
by rewrite E Ep ?orbT.
Qed.

Lemma view_marginalized h a V' mu' sigma' :
  a < size h ->
  view (marginalized_heap h a V' mu' sigma') a =
  Some (DistValue V' mu' sigma' None).
Proof.
move=> Ha; have [E1 E2 E3 E4 E5] := next_addr (size h).
apply: (@view_intro _ _ (MkJGD (size h) (size h).+1 (size h).+2 None)) => //=.
- by rewrite deref_marginalized // Ha eqxx.
- by rewrite deref_marginalized // ltnn eqxx.
- by rewrite deref_marginalized // E1 E3 eqxx.
- by rewrite deref_marginalized // E2 E4 E5 eqxx.
Qed.

Lemma view_marginalized_other h a V' mu' sigma' c v :
  is_jgd (deref h a) -> c != a -> view h c = Some v ->
  view (marginalized_heap h a V' mu' sigma') c = Some v.
Proof.
move=> Ja Hca Hv; apply: view_frame Hv _ => b Hb Hbc.
have Ha : a < size h by apply: deref_obj_lt; case: (deref h a) Ja.
rewrite deref_marginalized // (deref_obj_lt Hb).
case: eqP => // Eba; move: Hbc; rewrite Eba Ja orbF => /eqP Eac.
by rewrite Eac eqxx in Hca.
Qed.

Lemma view_copied_old h d mu sigma c v :
  view h c = Some v -> view (copied_heap h d mu sigma) c = Some v.
Proof.
move=> Hv; apply: view_frame Hv _ => b Hb _.
by rewrite deref_copied (deref_obj_lt Hb).
Qed.

Lemma marginalize_run h self d v R inplace :
  deref h self = PyJGD _ _ d ->
  deref h (variables d) = PyList _ (vars v) ->
  deref h (mean_vector d) = PyMatrix _ (mean v) ->
  deref h (covariance_matrix d) = PyMatrix _ (cov v) ->
  wf_dist v -> all (mem (vars v)) R ->
  marginalize self (PySeq R) inplace h =
  (Return (if inplace then None else Some (size h).+2),
   marginalize_heap h self d v R inplace).
Proof.
move=> Hd HV Hm Hs /andP[uV /and4P[wfm /eqP shm wfs /eqP shs]] HR.
have /andP[/eqP Hrm _] := wfm; have [Enm Ecm] := shm.
have EV : [seq x <- vars v | x \notin R] =
          mask [seq i \notin [seq index x (vars v) | x <- R]
               | i <- iota 0 (size (vars v))] (vars v).
  by rewrite keep_mask_iota // filter_mask.
rewrite marginalizeE /marginalize_heap /marginal /bind -(keep_mask_iota uV HR) EV.
case: inplace; rewrite /ret /=.
  exact: (marginalize_body_run _ Hd HV Hm Hs Hd HV).
rewrite (copy_run Hd HV Hm Hs wfm shm shs).
have [E1 E2 E3 E4 E5] := next_addr (size h).
have Hself : self < size h by apply: deref_obj_lt; rewrite Hd.
have HlV : variables d < size h by apply: deref_obj_lt; rewrite HV.
set hc := copied_heap _ _ _ _.
set c := MkJGD (variables d) (size h) (size h).+1 (_precision_matrix d).
have Hc : deref hc (size h).+2 = PyJGD _ _ c.
  by rewrite deref_copied E2 E4 E5 eqxx.
have HVc : deref hc (variables c) = PyList _ (vars v).
  by rewrite deref_copied HlV.
have Hmc : deref hc (mean_vector c) = PyMatrix _ (mean v).
  by rewrite deref_copied ltnn eqxx.
have Hsc : deref hc (covariance_matrix c) = PyMatrix _ (cov v).
  by rewrite deref_copied /= E1 E3 eqxx.
have Hd' : deref hc self = PyJGD _ _ d by rewrite deref_copied Hself.
exact: (marginalize_body_run _ Hc HVc Hmc Hsc Hd' HVc).
Qed.

(** *** The marginal *)

Lemma marginalize_result_marginal h self v R inplace :
  view h self = Some v -> wf_dist v -> all (mem (vars v)) R ->
  marginalize_result h self R inplace = Some (marginal v R).
Proof.
case/view_inv => d [Hd HV Hm Hs _] wfv HR.
have Hself : self < size h by apply: deref_obj_lt; rewrite Hd.
rewrite /marginalize_result (marginalize_run _ Hd HV Hm Hs wfv HR).
rewrite /marginalize_heap; case: inplace => /=.
  by rewrite view_marginalized.
by rewrite view_marginalized // size_copied.
Qed.

Lemma marginal_eq_mem (v : dist_value ident F) (R R' : seq ident) :
  R' =i R -> marginal v R' = marginal v R.
Proof.
move=> E; rewrite /marginal /keep_mask.
have -> : [seq x \notin R' | x <- vars v] = [seq x \notin R | x <- vars v].
  by apply: eq_map => x; rewrite E.
by congr DistValue; apply: eq_filter => x; rewrite E.
Qed.

Lemma mask_none (A T : Type) (V : seq A) (s : seq T) :
  mask [seq false | _ <- V] s = [::].
Proof. by elim: V s => [|x V IH] [|y s] //=. Qed.

Lemma mask_every (A T : Type) (V : seq A) (s : seq T) :
  size s <= size V -> mask [seq true | _ <- V] s = s.
Proof. by elim: V s => [|x V IH] [|y s] //= /IH ->. Qed.

Lemma count_none (A : Type) (V : seq A) : count id [seq false | _ <- V] = 0.
Proof. by elim: V. Qed.

Lemma count_every (A : Type) (V : seq A) :
  count id [seq true | _ <- V] = size V.
Proof. by elim: V => //= x V ->. Qed.

Lemma marginal_all (v : dist_value ident F) (R : seq ident) :
  consistent v -> all (mem R) (vars v) ->
  marginal v R = DistValue [::] (Matrix 0 1 [::]) (Matrix 0 0 [::]) None.
Proof.
case/and4P => _ /eqP[_ Ec] _ _ /allP HR; rewrite /marginal /keep_mask.
have -> : [seq x \notin R | x <- vars v] = [seq false | _ <- vars v].
  by apply/eq_in_map => x /HR /= ->.
have -> : [seq x <- vars v | x \notin R] = [::].
  by rewrite -(filter_pred0 (vars v)); apply/eq_in_filter => x /HR /= ->.
by rewrite /sub_vector /principal_submatrix !mask_none Ec count_none.
Qed.

Lemma marginal_nil (v : dist_value ident F) :
  consistent v ->
  marginal v [::] = DistValue (vars v) (mean v) (cov v) None.
Proof.
case: v => V [rm cm m] [rs cs sg] c /and4P[/= /andP[/= /eqP Hm _]].
move=> /eqP[/= Erm Ecm] /andP[/= /eqP Hs /allP Hr] /eqP[/= Ers Ecs].
move: Hm Hs Hr; rewrite {rm}Erm {cm}Ecm {rs}Ers {cs}Ecs => Hm Hs Hr.
rewrite /marginal /keep_mask /= filter_predT.
rewrite /sub_vector /principal_submatrix /= count_every.
rewrite !mask_every ?Hm ?Hs //; congr (DistValue _ _ (Matrix _ _ _) _).
rewrite -[RHS]map_id; apply/eq_in_map => r /Hr /eqP /= Er.
by rewrite mask_every // Er.
Qed.

(** C1: for a distribution of the data model (distinct variables, matching
    dimensions) and identifiers [R] all among its variables, [marginalize]
    succeeds and leaves the distribution over the variables not in [R], in
    their original order, with the mean restricted to the kept positions and
    the covariance restricted to the kept rows and columns; the result does
    not depend on the order of [R]; removing every variable gives the
    zero-dimensional distribution and is no error; removing none leaves
    variables, mean and covariance equal by value. *)
Theorem marginalize_correct h self v (R : seq ident) inplace :
  view h self = Some v -> wf_dist v -> all (mem (vars v)) R ->
  [/\ marginalize_result h self R inplace = Some (marginal v R),
      forall R', perm_eq R' R ->
        marginalize_result h self R' inplace =
        marginalize_result h self R inplace,
      all (mem R) (vars v) ->
        marginalize_result h self R inplace =
        Some (DistValue [::] (Matrix 0 1 [::]) (Matrix 0 0 [::]) None)
    & marginalize_result h self [::] inplace =
      Some (DistValue (vars v) (mean v) (cov v) None)].
Proof.
move=> Hv wfv HR; have /andP[_ cv] := wfv.
rewrite (marginalize_result_marginal inplace Hv wfv HR); split => //.
- move=> R' /perm_mem E.
  rewrite (marginalize_result_marginal inplace Hv wfv) ?(eq_all_r E) //.
  by rewrite (marginal_eq_mem v E).
- by move=> HV; rewrite marginal_all.
- by rewrite (marginalize_result_marginal inplace Hv wfv) // marginal_nil.
Qed.

(** *** Stores that only grow *)

Lemma deref_cat h (t : heap) a : a < size h -> deref (h ++ t) a = deref h a.
Proof. by rewrite /deref nth_cat => ->. Qed.

Lemma view_cat h (t : heap) c v : view h c = Some v -> view (h ++ t) c = Some v.
Proof.
by move=> Hv; apply: view_frame Hv _ => b /deref_obj_lt Hb _; rewrite deref_cat.
Qed.

Lemma copied_heap_cat h d mu sigma :
  copied_heap h d mu sigma =
  h ++ [:: PyMatrix _ mu; PyMatrix _ sigma;
           PyJGD _ _ (MkJGD (variables d) (size h) (size h).+1
                            (_precision_matrix d))].
Proof. by rewrite /copied_heap -!cats1 -!catA. Qed.

(** [copy] raises [ValueError], leaving the store a prefix of the final
    one, or runs to its end. *)
Lemma copy_cases h self d V mu sigma :
  deref h self = PyJGD _ _ d ->
  deref h (variables d) = PyList _ V ->
  deref h (mean_vector d) = PyMatrix _ mu ->
  deref h (covariance_matrix d) = PyMatrix _ sigma ->
  (exists2 t, copy self h = (Raise ValueError, h ++ t) &
              all (fun o => ~~ is_jgd o) t) \/
  (exists mu', copy self h = (Return (size h).+2, copied_heap h d mu' sigma)).
Proof.
move=> Hd HV Hm Hs.
rewrite /copy /bind /get_jgd Hd /get_matrix Hm Hs /__init__ /bind /get_list HV.
case: eqP => /= _; last by left; exists [::]; rewrite ?cats0.
rewrite /np_reshape_n1; case: eqP => /= _; last by left; exists [::]; rewrite ?cats0.
rewrite /alloc; case: eqP => /= _; last first.
  by left; rewrite -!cats1 -!catA; eexists.
rewrite /setattr !size_rcons.
set h2 := rcons (rcons h _) _.
have <- : size h2 = (size h).+2 by rewrite !size_rcons.
rewrite deref_rcons_new /= set_nth_rcons_last; right; eexists.
by rewrite /copied_heap /h2 !size_rcons.
Qed.

(** C8: an identifier that is not a variable of the distribution makes
    [marginalize] raise [ValueError] (the specification's
    UnknownVariableError, from [list.index]).  The store the caller had is a
    prefix of the final one, so no object was modified and the receiver
    denotes the same distribution, cache included; with [inplace=True]
    nothing at all was added. *)
Theorem marginalize_unknown_variable h self v (R : seq ident) inplace :
  view h self = Some v -> ~~ all (mem (vars v)) R ->
  exists t, [/\ marginalize self (PySeq R) inplace h = (Raise ValueError, h ++ t),
                view (h ++ t) self = Some v
              & inplace -> t = [::]].
Proof.
move=> Hv /negbTE HR; have [d [Hd HV Hm Hs _]] := view_inv Hv.
have body t a c (ip : bool) :
    deref (h ++ t) a = PyJGD _ _ c -> variables c = variables d ->
    marginalize_body self R ip a (h ++ t) = (Raise ValueError, h ++ t).
  move=> Ha Ec; rewrite /marginalize_body /bind /get_jgd Ha /get_list Ec.
  rewrite deref_cat ?HV ?omapM_list_index ?HR //.
  by apply: deref_obj_lt; rewrite HV.
rewrite marginalizeE /bind; case: inplace => /=.
  exists [::]; rewrite cats0; split=> //.
  by rewrite -{1 2}(cats0 h) (body _ _ d) ?cats0.
have [[t E _]|[mu' E]] := copy_cases Hd HV Hm Hs; rewrite E /=.
  by exists t; split=> //; exact: view_cat.
set c := MkJGD (variables d) (size h) (size h).+1 (_precision_matrix d).
rewrite copied_heap_cat -/c.
exists [:: PyMatrix _ mu'; PyMatrix _ (cov v); PyJGD _ _ c]; split=> //.
  apply: (body _ _ c) => //; rewrite -copied_heap_cat deref_copied.
  by case: (next_addr (size h)) => _ -> _ -> ->; rewrite eqxx.
exact: view_cat.
Qed.

Lemma deref_cat_new h (t : heap) k :
  deref (h ++ t) (size h + k) = nth (PyNone _ _) t k.
Proof. by rewrite /deref nth_cat ltnNge leq_addr /= addKn. Qed.

(** What [marginalize(..., inplace=False)] adds to the store: the copy of
    the two matrices, the new instance, and the three objects of the
    marginal. *)
Lemma marginalized_copy_cat h d mu sigma V' mu' sigma' :
  marginalized_heap (copied_heap h d mu sigma) (size h).+2 V' mu' sigma' =
  h ++ [:: PyMatrix _ mu; PyMatrix _ sigma;
           PyJGD _ _ (MkJGD (size h).+3 (size h).+4 (size h).+4.+1 None);
           PyList _ V'; PyMatrix _ mu'; PyMatrix _ sigma'].
Proof.
rewrite /marginalized_heap size_copied /copied_heap.
set h2 := rcons (rcons h _) _.
have <- : size h2 = (size h).+2 by rewrite !size_rcons.
by rewrite set_nth_rcons_last /h2 -!cats1 -!catA.
Qed.

(** C5: with [inplace=False] the receiver is left as it was (the old store
    is a prefix of the new one) and the call returns a new instance holding
    the marginal, whose three attributes are objects created by the call and
    shared with nothing older; with [inplace=True] the call returns [None]
    and the receiver holds the marginal. *)
Theorem marginalize_inplace_flag h self v (R : seq ident) :
  view h self = Some v -> wf_dist v -> all (mem (vars v)) R ->
  (exists c t,
     [/\ marginalize self (PySeq R) false h = (Return (Some c), h ++ t),
         view (h ++ t) self = Some v,
         size h <= c,
         view (h ++ t) c = Some (marginal v R)
       & exists d', [/\ deref (h ++ t) c = PyJGD _ _ d',
                        size h <= variables d', size h <= mean_vector d',
                        size h <= covariance_matrix d'
                      & _precision_matrix d' = None]]) /\
  (exists h',
     marginalize self (PySeq R) true h = (Return None, h') /\
     view h' self = Some (marginal v R)).
Proof.
move=> Hv wfv HR; have [d [Hd HV Hm Hs _]] := view_inv Hv.
have Hself : self < size h by apply: deref_obj_lt; rewrite Hd.
split; last first.
  rewrite (marginalize_run true Hd HV Hm Hs wfv HR); eexists; split=> //.
  by rewrite /marginalize_heap view_marginalized.
rewrite (marginalize_run false Hd HV Hm Hs wfv HR) /marginalize_heap.
have Hw := @view_marginalized (copied_heap h d (mean v) (cov v)) (size h).+2
  (vars (marginal v R)) (mean (marginal v R)) (cov (marginal v R)).
move: Hw; rewrite size_copied marginalized_copy_cat => /(_ (leqnn _)) Hw.
exists (size h).+2; eexists; split; first by [].
- exact: view_cat.
- by rewrite leqW.
- exact: Hw.
exists (MkJGD (size h).+3 (size h).+4 (size h).+4.+1 None).
split=> //=; rewrite ?leqW //.
by rewrite -[(size h).+2]addn2 deref_cat_new.
Qed.

(** *** Construction *)

(** C3, as the code has it: with [n] the number of variables, the
    constructor raises [ValueError] (the specification's DimensionError)
    when [len(mean_vector)] is not [n] or [mean_vector] does not hold [n]
    scalars (then [np.reshape] refuses it), and when the shape of the
    covariance is not [(n, n)].  When [len(mean_vector)] is [n],
    [mean_vector] holds [n] scalars and the covariance is [n x n], it
    returns a new instance whose [variables] is the very list that was
    passed, whose mean is the [n x 1] column of the scalars given, whose
    covariance is the matrix given, and whose precision cache is unset.  A
    failed call leaves the caller's store as a prefix of the final one. *)
Theorem init_dimensions h variables_ (V : seq ident)
    (mean_vector covariance_matrix : array_like F) :
  deref h variables_ = PyList _ V ->
  [/\ (len mean_vector != size V) || (size (ravel mean_vector) != size V) ->
        exists t, __init__ variables_ mean_vector covariance_matrix h =
                  (Raise ValueError, h ++ t),
      shape (np_matrix covariance_matrix) != (size V, size V) ->
        exists t, __init__ variables_ mean_vector covariance_matrix h =
                  (Raise ValueError, h ++ t)
    & len mean_vector = size V -> size (ravel mean_vector) = size V ->
      shape (np_matrix covariance_matrix) = (size V, size V) ->
        exists self h',
          [/\ __init__ variables_ mean_vector covariance_matrix h =
              (Return self, h'),
              view h' self =
              Some (DistValue V
                      (Matrix (size V) 1 [seq [:: x] | x <- ravel mean_vector])
                      (np_matrix covariance_matrix) None)
            & exists d, [/\ deref h' self = PyJGD _ _ d,
                            variables d = variables_
                          & _precision_matrix d = None]]].
Proof.
move=> HV; split.
- rewrite /__init__ /bind /get_list HV /= /np_reshape_n1.
  case: (len _ == _) => /=; last by exists [::]; rewrite cats0.
  case: (size _ == _) => //= _.
  by exists [::]; rewrite cats0.
- rewrite /__init__ /bind /get_list HV /= /np_reshape_n1 => /negbTE ->.
  case: (len _ == _) => /=; last by exists [::]; rewrite cats0.
  case: (size _ == _) => /=; last by exists [::]; rewrite cats0.
  by rewrite -!cats1 -catA; eexists.
move=> Hl Hr Hs.
have Er : np_reshape_n1 mean_vector (size V) =
          Some (Matrix (size V) 1 [seq [:: x] | x <- ravel mean_vector]).
  by rewrite /np_reshape_n1 Hr eqxx.
rewrite (init_run HV Hl Er Hs).
set mu := Matrix _ _ _; set sigma := np_matrix _.
rewrite -/(copied_heap h (MkJGD variables_ 0 0 None) mu sigma).
have [E1 E2 E3 E4 E5] := next_addr (size h).
have Hlt : variables_ < size h by apply: deref_obj_lt; rewrite HV.
have Hd : deref (copied_heap h (MkJGD variables_ 0 0 None) mu sigma) (size h).+2 =
          PyJGD _ _ (MkJGD variables_ (size h) (size h).+1 None).
  by rewrite deref_copied E2 E4 E5 eqxx.
do 2!eexists; split; first by [].
  apply: (view_intro Hd) => //=.
  - by rewrite deref_copied Hlt.
  - by rewrite deref_copied ltnn eqxx.
  - by rewrite deref_copied E1 E3 eqxx.
by exists (MkJGD variables_ (size h) (size h).+1 None).
Qed.

(** *** What an operation may touch *)

Section Preserves.

Variable R : heap -> heap -> Prop.
Hypothesis R_refl : forall h, R h h.
Hypothesis R_trans : forall h1 h2 h3, R h1 h2 -> R h2 h3 -> R h1 h3.

Lemma preserves_ret (A : Type) (x : A) : preserves R (@ret ident F A x).
Proof. by move=> h; apply: R_refl. Qed.

Lemma preserves_raise (A : Type) e : preserves R (@raise ident F A e).
Proof. by move=> h; apply: R_refl. Qed.

Lemma preserves_lift (A : Type) e (o : option A) : preserves R (@lift ident F A e o).
Proof. by case: o => [x|]; [apply: preserves_ret | apply: preserves_raise]. Qed.

Lemma preserves_bind (A B : Type) (c : M A) (k : A -> M B) :
  preserves R c -> (forall x, preserves R (k x)) -> preserves R (bind c k).
Proof.
move=> Hc Hk h; rewrite /bind; move: (Hc h).
case: (c h) => [[x|e] h1] //= H1; exact: R_trans H1 (Hk x h1).
Qed.

Lemma preserves_get_list a : preserves R (@get_list ident F a).
Proof. by move=> h; rewrite /get_list; case: (deref h a) => *; apply: R_refl. Qed.

Lemma preserves_get_matrix a : preserves R (@get_matrix ident F a).
Proof. by move=> h; rewrite /get_matrix; case: (deref h a) => *; apply: R_refl. Qed.

Lemma preserves_get_jgd a : preserves R (@get_jgd ident F a).
Proof. by move=> h; rewrite /get_jgd; case: (deref h a) => *; apply: R_refl. Qed.

Lemma preserves_if (A : Type) (b : bool) (c1 c2 : M A) :
  preserves R c1 -> preserves R c2 -> preserves R (if b then c1 else c2).
Proof. by case: b. Qed.

End Preserves.

(** Walks through a program of the store monad, one [bind] at a time. *)
Ltac preserves_by Hrefl Htrans rules :=
  repeat first
    [ rules
    | apply: (preserves_bind Htrans) => [|?]
    | apply: (preserves_ret Hrefl)
    | apply: (preserves_raise Hrefl)
    | apply: (preserves_lift Hrefl)
    | apply: (preserves_get_list Hrefl)
    | apply: (preserves_get_matrix Hrefl)
    | apply: (preserves_get_jgd Hrefl)
    | apply: preserves_if
    | progress cbv zeta ].

Lemma only_at_refl a h : only_at a h h.
Proof. by split. Qed.

Lemma only_at_trans a h1 h2 h3 :
  only_at a h1 h2 -> only_at a h2 h3 -> only_at a h1 h3.
Proof.
move=> [S1 E1] [S2 E2]; split; first exact: leq_trans S1 S2.
by move=> b Hb Hba; rewrite E2 ?E1 //; apply: leq_trans Hb S1.
Qed.

Lemma only_at_alloc a o : preserves (only_at a) (@alloc ident F o).
Proof.
move=> h; split; rewrite /= ?size_rcons // => b Hb _.
by rewrite deref_rcons_lt.
Qed.

Lemma only_at_setattr a f : preserves (only_at a) (@setattr ident F a f).
Proof.
move=> h; rewrite /setattr; case E: (deref h a) => [| | |d] /=;
  try exact: only_at_refl.
have Ha : a < size h by apply: deref_obj_lt; rewrite E.
by split=> [|b Hb /negbTE Hba]; rewrite ?size_set_nth_lt // deref_set_nth Hba.
Qed.

Ltac only_at_rules :=
  first [ apply: only_at_alloc | apply: only_at_setattr ].

Lemma only_at_marginalize_body self R (ip : bool) a :
  preserves (only_at a) (marginalize_body (F:=F) self R ip a).
Proof.
by rewrite /marginalize_body;
  preserves_by (@only_at_refl a) (@only_at_trans a) only_at_rules.
Qed.

Lemma only_at_marginalize self arg :
  preserves (only_at self) (marginalize self arg true).
Proof.
case: arg => [s|R] h; first exact: only_at_refl.
by rewrite marginalizeE /bind /ret /=; apply: only_at_marginalize_body.
Qed.

Lemma only_at_precision_matrix (inv : matrix -> option matrix) self :
  preserves (only_at self) (precision_matrix inv self).
Proof.
rewrite /precision_matrix; apply: (preserves_bind (@only_at_trans self)) => [|d].
  exact: (preserves_get_jgd (@only_at_refl self)).
by case: (_precision_matrix d) => [p|];
  preserves_by (@only_at_refl self) (@only_at_trans self) only_at_rules.
Qed.

Lemma view_only_at a h h' c v :
  only_at a h h' -> is_jgd (deref h a) -> c != a ->
  view h c = Some v -> view h' c = Some v.
Proof.
move=> [_ E] Ja Hca Hv; apply: view_frame Hv _ => b Hb Hbc.
apply: E; first exact: deref_obj_lt.
apply/eqP => Eba; move: Hbc; rewrite Eba Ja orbF => /eqP Eac.
by rewrite Eac eqxx in Hca.
Qed.

(** *** [copy] *)

(** C4, as the code has it: [copy] returns a new instance that denotes the
    same distribution as the receiver, cached precision included (unset when
    the receiver's is unset).  Its mean and covariance are new objects: no
    mutation of an object the caller already had changes them, and mutating
    them changes nothing of the receiver.  No call of [marginalize] in place
    or of [precision_matrix] on one of the two instances changes what the
    other denotes. *)
Theorem copy_independent (inv : matrix -> option matrix) h self v :
  view h self = Some v -> consistent v ->
  exists c t dc,
    [/\ [/\ copy self h = (Return c, h ++ t), size h <= c,
            deref (h ++ t) c = PyJGD _ _ dc,
            size h <= mean_vector dc & size h <= covariance_matrix dc],
        view (h ++ t) self = Some v /\ view (h ++ t) c = Some v,
        forall a o, a < size h ->
          deref (mutate a o (h ++ t)).2 (mean_vector dc) = PyMatrix _ (mean v) /\
          deref (mutate a o (h ++ t)).2 (covariance_matrix dc) = PyMatrix _ (cov v),
        forall o,
          view (mutate (mean_vector dc) o (h ++ t)).2 self = Some v /\
          view (mutate (covariance_matrix dc) o (h ++ t)).2 self = Some v
      & forall arg,
          [/\ view (marginalize self arg true (h ++ t)).2 c = Some v,
              view (marginalize c arg true (h ++ t)).2 self = Some v,
              view (precision_matrix inv self (h ++ t)).2 c = Some v
            & view (precision_matrix inv c (h ++ t)).2 self = Some v]].
Proof.
case: v => V mu sg cv Hv /and4P[/= wfm /eqP shm wfs /eqP shs].
have [d [/= Hd HV Hm Hs Hc]] := view_inv Hv.
have [E1 E2 E3 E4 E5] := next_addr (size h).
have Hself : self < size h by apply: deref_obj_lt; rewrite Hd.
have HlV : variables d < size h by apply: deref_obj_lt; rewrite HV.
set dc := MkJGD (variables d) (size h) (size h).+1 (_precision_matrix d).
exists (size h).+2, [:: PyMatrix _ mu; PyMatrix _ sg; PyJGD _ _ dc], dc.
rewrite -copied_heap_cat; set hc := copied_heap _ _ _ _.
have Hdc : deref hc (size h).+2 = PyJGD _ _ dc by rewrite deref_copied E2 E4 E5 eqxx.
have Hmc : deref hc (size h) = PyMatrix _ mu by rewrite deref_copied ltnn eqxx.
have Hsc : deref hc (size h).+1 = PyMatrix _ sg by rewrite deref_copied E1 E3 eqxx.
have Hvs : view hc self = Some (DistValue V mu sg cv) by apply: view_copied_old.
have Hvc : view hc (size h).+2 = Some (DistValue V mu sg cv).
  apply: (view_intro Hdc) => //=; first by rewrite deref_copied HlV.
  case: (_precision_matrix d) Hc => [p|] //=.
  case Ep: (deref h p) => [| |P|] // [<-].
  by rewrite deref_copied (@deref_obj_lt h p) ?Ep.
have Ncs : (size h).+2 != self by rewrite gtn_eqF // ltnW // ltnW.
have Nsc : self != (size h).+2 by rewrite eq_sym.
have Js : is_jgd (deref hc self) by rewrite deref_copied Hself Hd.
have Jc : is_jgd (deref hc (size h).+2) by rewrite Hdc.
split=> //.
- by split=> //; rewrite ?(copy_run Hd HV Hm Hs wfm shm shs) // leqW.
- move=> a o Ha; rewrite /mutate /= !deref_set_nth Hmc Hsc.
  by rewrite !gtn_eqF // ltnW.
- move=> o; rewrite /mutate /=; split; apply: view_frame Hv _ => b /deref_obj_lt Hb _.
    by rewrite deref_set_nth ltn_eqF // deref_copied Hb.
  by rewrite deref_set_nth ltn_eqF ?deref_copied ?Hb // ltnW.
move=> arg; split.
- exact: view_only_at (only_at_marginalize self arg hc) Js Ncs Hvc.
- exact: view_only_at (only_at_marginalize _ arg hc) Jc Nsc Hvs.
- exact: view_only_at (only_at_precision_matrix inv self hc) Js Ncs Hvc.
- exact: view_only_at (only_at_precision_matrix inv _ hc) Jc Nsc Hvs.
Qed.

(** *** The exact inverse *)

Lemma mx_of_matrix_of_mx n (A : 'M[F]_n) : mx_of n (matrix_of_mx A) = A.
Proof.
apply/matrixP => i j; rewrite mxE /matrix_of_mx /=.
rewrite (nth_map i) ?size_enum_ord // (nth_map j) ?size_enum_ord //.
by rewrite !nth_ord_enum.
Qed.

Lemma square_matrix_of_mx n (A : 'M[F]_n) : square n (matrix_of_mx A).
Proof.
rewrite /square /wf_matrix /shape /= size_map size_enum_ord !eqxx /= andbT.
by apply/allP => r /mapP[i _ ->]; rewrite size_map size_enum_ord.
Qed.

Lemma exact_inv_exact : exact (@exact_inv F).
Proof.
move=> S; rewrite /exact_inv; case: ifP => [/andP[sq un]|H].
  split=> //; first exact: square_matrix_of_mx.
  by rewrite mx_of_matrix_of_mx mulVmx.
case=> P [sq _ E]; move: H; rewrite sq /=.
by have [_ ->] := mulmx1_unit E.
Qed.

Lemma matrix_of_mx_of n (P : matrix) :
  square n P -> matrix_of_mx (mx_of n P) = P.
Proof.
case: P => r c rs /andP[/andP[/= /eqP Hs /allP Hr] /eqP[/= Er Ec]].
move: Hs Hr; rewrite {r}Er {c}Ec => Hs Hr.
rewrite /matrix_of_mx; congr Matrix.
apply: (@eq_from_nth _ [::]); first by rewrite size_map size_enum_ord.
move=> i; rewrite size_map size_enum_ord => Hi.
rewrite (nth_map (Ordinal Hi)) ?size_enum_ord //.
have Hri : size (nth [::] rs i) = n by apply/eqP/Hr/mem_nth; rewrite Hs.
apply: (@eq_from_nth _ 0); first by rewrite size_map size_enum_ord.
move=> j; rewrite size_map size_enum_ord => Hj.
rewrite (nth_map (Ordinal Hj)) ?size_enum_ord // mxE /=.
by rewrite !nth_enum_ord.
Qed.

(** A matrix has at most one inverse. *)
Lemma inverse_of_inj (P P' S : matrix) :
  inverse_of P S -> inverse_of P' S -> P = P'.
Proof.
move=> [sS sP E] [_ sP' E'].
rewrite -(matrix_of_mx_of sP) -(matrix_of_mx_of sP'); congr matrix_of_mx.
have [_ uS] := mulmx1_unit E.
by rewrite -[LHS](mulmxK uS) E -[RHS](mulmxK uS) E'.
Qed.

Lemma exact_invertible (inv : matrix -> option matrix) S :
  exact inv -> invertible S -> exists2 P, inv S = Some P & inverse_of P S.
Proof.
by move=> /(_ S); case: (inv S) => [P|] // HP _; exists P.
Qed.

(** *** Running [precision_matrix] *)

Lemma precision_matrix_hit (inv : matrix -> option matrix) h self d p :
  deref h self = PyJGD _ _ d -> _precision_matrix d = Some p ->
  precision_matrix inv self h = (Return p, h).
Proof. by move=> Hd Hp; rewrite /precision_matrix /bind /get_jgd Hd Hp. Qed.

Lemma precision_matrix_miss (inv : matrix -> option matrix) h self d sigma :
  deref h self = PyJGD _ _ d -> _precision_matrix d = None ->
  deref h (covariance_matrix d) = PyMatrix _ sigma ->
  precision_matrix inv self h =
  match inv sigma with
  | Some P =>
      (Return (size h),
       rcons (set_nth (PyNone _ _) h self
                (PyJGD _ _ (set_precision_matrix d (Some (size h)))))
             (PyMatrix _ P))
  | None => (Raise LinAlgError, h)
  end.
Proof.
move=> Hd Hp Hs; rewrite /precision_matrix /bind /get_jgd Hd Hp /get_matrix Hs.
have Hself : self < size h by apply: deref_obj_lt; rewrite Hd.
case: (inv sigma) => [P|] //=.
by rewrite /setattr deref_rcons_lt // Hd /= set_nth_rcons_lt.
Qed.

Lemma deref_cached h self d P b :
  self < size h ->
  deref (cached_heap h self d P) b =
  if b < size h then
    if b == self then PyJGD _ _ (set_precision_matrix d (Some (size h)))
    else deref h b
  else if b == size h then PyMatrix _ P else PyNone _ _.
Proof.
by move=> Hs; rewrite /cached_heap deref_rcons size_set_nth_lt // deref_set_nth.
Qed.

Lemma neq_by_class h a b :
  is_jgd (deref h a) -> ~~ is_jgd (deref h b) -> (b == a) = false.
Proof. by move=> Ja Jb; apply/eqP => E; rewrite E Ja in Jb. Qed.

Section Precision.

Variable inv : matrix -> option matrix.
Hypothesis inv_exact : exact inv.

(** C2: on a distribution with an invertible covariance and an unset
    cache, [precision_matrix] returns a matrix [P] with [P * Sigma = 1] and
    stores it in the cache; the next access returns the very same object and
    leaves the store as it is; after a [marginalize] in place, the next
    access goes back to [np.linalg.inv] with the new covariance: it returns
    a new object holding the inverse of the new covariance, or raises when
    the new covariance has no inverse, and never the object cached
    before. *)
Theorem precision_matrix_cached h self v :
  view h self = Some v -> wf_dist v -> cache v = None -> invertible (cov v) ->
  exists P a h1,
    [/\ precision_matrix inv self h = (Return a, h1),
        deref h1 a = PyMatrix _ P /\ inverse_of P (cov v),
        view h1 self = Some (DistValue (vars v) (mean v) (cov v) (Some P)),
        precision_matrix inv self h1 = (Return a, h1)
      & forall R : seq ident, all (mem (vars v)) R ->
          let h2 := (marginalize self (PySeq R) true h1).2 in
          view h2 self = Some (marginal v R) /\
          match inv (cov (marginal v R)) with
          | Some P' =>
              exists a' h3,
                [/\ precision_matrix inv self h2 = (Return a', h3),
                    deref h3 a' = PyMatrix _ P',
                    inverse_of P' (cov (marginal v R)) & a' != a]
          | None => precision_matrix inv self h2 = (Raise LinAlgError, h2)
          end].
Proof.
move=> Hv wfv Hc Hinv; have [d [Hd HV Hm Hs Hcv]] := view_inv Hv.
have Hnone : _precision_matrix d = None.
  by case: (_precision_matrix d) Hcv => [p|] //=; case: (deref h p) => // P [E]; rewrite -E in Hc.
have [P EP HP] := exact_invertible inv_exact Hinv.
have Hself : self < size h by apply: deref_obj_lt; rewrite Hd.
have Js : is_jgd (deref h self) by rewrite Hd.
set d1 := set_precision_matrix d (Some (size h)).
exists P, (size h), (cached_heap h self d P).
have Hd1 : deref (cached_heap h self d P) self = PyJGD _ _ d1.
  by rewrite deref_cached // Hself eqxx.
have old b o : deref h b = o -> is_obj o -> ~~ is_jgd o ->
    deref (cached_heap h self d P) b = o.
  move=> E Ho Jo; rewrite deref_cached // (@deref_obj_lt h b) ?E //.
  by rewrite (@neq_by_class h self b) ?E.
have HV1 := old _ _ HV isT isT; have Hm1 := old _ _ Hm isT isT.
have Hs1 := old _ _ Hs isT isT.
have HP1 : deref (cached_heap h self d P) (size h) = PyMatrix _ P.
  by rewrite deref_cached // ltnn eqxx.
split.
- by rewrite (precision_matrix_miss inv Hd Hnone Hs) EP.
- by [].
- by apply: (view_intro Hd1) => //=; rewrite HP1.
- exact: (precision_matrix_hit inv Hd1).
move=> R HR; rewrite (marginalize_run true Hd1 HV1 Hm1 Hs1 wfv HR) /=.
set w := marginal v R; set h1 := cached_heap _ _ _ _.
have Hself1 : self < size h1 by apply: deref_obj_lt; rewrite Hd1.
set h2 := marginalized_heap _ _ _ _ _.
have [E1 E2 E3 E4 E5] := next_addr (size h1).
have Hd2 : deref h2 self = PyJGD _ _ (MkJGD (size h1) (size h1).+1 (size h1).+2 None).
  by rewrite deref_marginalized // Hself1 eqxx.
have Hs2 : deref h2 (size h1).+2 = PyMatrix _ (cov w).
  by rewrite deref_marginalized // E2 E4 E5 eqxx.
split; first by rewrite /h2 view_marginalized //; case: (w).
rewrite (precision_matrix_miss inv Hd2 _ Hs2) //.
have := inv_exact (cov w); case: (inv (cov w)) => [P'|] // HP'.
do 2!eexists; split; first by []; last first.
- by rewrite size_marginalized // /h1 size_rcons size_set_nth_lt // gtn_eqF // !ltnS !leqW.
- by [].
set h3 := set_nth _ _ _ _.
have <- : size h3 = size h2 by rewrite size_set_nth_lt // size_marginalized // !leqW // ltnW.
by rewrite deref_rcons_new.
Qed.

(** C7: when the covariance has no inverse, [precision_matrix] raises
    [LinAlgError] (the specification's SingularMatrixError) and leaves the
    store as it was: nothing is retried and nothing is cached.  When the
    covariance has an inverse, the access returns.  The distribution is one
    of the data model: a cached precision, if any, is the inverse of the
    current covariance. *)
Theorem precision_matrix_singular h self v :
  view h self = Some v ->
  (forall P, cache v = Some P -> inverse_of P (cov v)) ->
  (~ invertible (cov v) -> precision_matrix inv self h = (Raise LinAlgError, h)) /\
  (invertible (cov v) -> exists a h', precision_matrix inv self h = (Return a, h')).
Proof.
move=> Hv Hok; have [d [Hd HV Hm Hs Hcv]] := view_inv Hv.
case Ep: (_precision_matrix d) Hcv => [p|] /=.
  case: (deref h p) => // P [EP]; split=> [[]|_].
    by exists P; apply: Hok.
  by exists p, h; apply: (precision_matrix_hit inv Hd).
move=> _; rewrite (precision_matrix_miss inv Hd Ep Hs).
have := inv_exact (cov v); case: (inv (cov v)) => [P|] HP; split=> //.
- by case; exists P.
- by move=> _; do 2!eexists.
Qed.

End Precision.

Lemma mx_of_unit : mx_of 1 unit_matrix = 1%:M.
Proof. by apply/matrixP => i j; rewrite !mxE !ord1. Qed.

Lemma mx_of_null : mx_of 1 null_matrix = 0.
Proof. by apply/matrixP => i j; rewrite !mxE !ord1. Qed.

Lemma inverse_of_unit : inverse_of unit_matrix unit_matrix.
Proof. by split=> //=; rewrite mx_of_unit mulmx1. Qed.

Lemma invertible_unit : invertible unit_matrix.
Proof. by exists unit_matrix; apply: inverse_of_unit. Qed.

Lemma singular_null : ~ invertible null_matrix.
Proof.
case=> P [_ _] /=; rewrite mx_of_null mulmx0 => /matrixP/(_ ord0 ord0).
by rewrite !mxE /= => /eqP; rewrite eq_sym oner_eq0.
Qed.

(** *** Rebinding the covariance clears the cache *)

Lemma preserves_bind_seq (T R : heap -> heap -> Prop) (A B : Type)
    (c : M A) (k : A -> M B) :
  (forall h1 h2, T h1 h2 -> R h1 h2) ->
  (forall h1 h2 h3, T h1 h2 -> R h2 h3 -> R h1 h3) ->
  preserves T c -> (forall x, preserves R (k x)) -> preserves R (bind c k).
Proof.
move=> incl comp Hc Hk h; rewrite /bind; move: (Hc h).
case: (c h) => [[x|e] h1] /= H1; [exact: comp H1 (Hk x h1) | exact: incl].
Qed.

Lemma keeps_cov_refl h : keeps_cov h h.
Proof. by move=> a d Hd; exists d. Qed.

Lemma keeps_cov_trans h1 h2 h3 :
  keeps_cov h1 h2 -> keeps_cov h2 h3 -> keeps_cov h1 h3.
Proof.
move=> H12 H23 a d /H12[d' /H23[d'' Hd'' E2] E1]; exists d'' => //.
by rewrite E2.
Qed.

Lemma keeps_cov_clears h1 h2 : keeps_cov h1 h2 -> clears h1 h2.
Proof. by move=> H a d /H[d' Hd' E]; exists d' => //; left. Qed.

Lemma keeps_cov_then_clears h1 h2 h3 :
  keeps_cov h1 h2 -> clears h2 h3 -> clears h1 h3.
Proof.
move=> H12 H23 a d /H12[d' /H23[d'' Hd'' E2] E1]; exists d'' => //.
by case: E2 => [->|->]; [left | right].
Qed.

Lemma keeps_cov_alloc o : preserves keeps_cov (@alloc ident F o).
Proof.
move=> h a d Hd; exists d => //=; rewrite deref_rcons_lt //.
by apply: deref_obj_lt; rewrite Hd.
Qed.

Lemma keeps_cov_setattr a f :
  (forall d, covariance_matrix (f d) = covariance_matrix d) ->
  preserves keeps_cov (@setattr ident F a f).
Proof.
move=> Hf h; rewrite /setattr; case E: (deref h a) => [| | |d0] /=;
  try exact: keeps_cov_refl.
move=> b d Hd; rewrite deref_set_nth; case: eqP => [Eb|_]; last by exists d.
by exists (f d0) => //; move: Hd; rewrite Eb E => -[<-].
Qed.

(** The last two assignments of [marginalize], taken together. *)
Lemma clears_last_assignments (A : Type) a x (r : A) :
  preserves clears
    (setattr a (fun d => set_covariance_matrix d x) ;;;
     setattr a (fun d => set_precision_matrix d None) ;;;
     @ret ident F A r).
Proof.
move=> h; rewrite /bind /setattr; case E: (deref h a) => [| | |d0] /=;
  try exact/keeps_cov_clears/keeps_cov_refl.
rewrite deref_set_nth_same /= set_nth_twice => b d Hd.
rewrite deref_set_nth; case: eqP => [Eb|_]; last by exists d => //; left.
by eexists; first by []; right.
Qed.

Ltac keeps_cov_rules :=
  first [ apply: keeps_cov_alloc | by apply: keeps_cov_setattr ].

Lemma keeps_cov_init vs m s : preserves keeps_cov (@__init__ ident F vs m s).
Proof.
by rewrite /__init__; preserves_by keeps_cov_refl keeps_cov_trans keeps_cov_rules.
Qed.

Lemma keeps_cov_copy self : preserves keeps_cov (@copy ident F self).
Proof.
rewrite /copy;
  preserves_by keeps_cov_refl keeps_cov_trans
    ltac:(first [ apply: keeps_cov_init | keeps_cov_rules ]).
Qed.

Lemma keeps_cov_precision_matrix (inv : matrix -> option matrix) self :
  preserves keeps_cov (precision_matrix inv self).
Proof.
rewrite /precision_matrix; apply: (preserves_bind keeps_cov_trans) => [|d].
  exact: (preserves_get_jgd keeps_cov_refl).
by case: (_precision_matrix d) => [p|];
  preserves_by keeps_cov_refl keeps_cov_trans keeps_cov_rules.
Qed.

Lemma clears_marginalize_body self R (ip : bool) a :
  preserves clears (marginalize_body (F:=F) self R ip a).
Proof.
rewrite /marginalize_body.
repeat first
  [ apply: clears_last_assignments
  | apply: (preserves_bind_seq keeps_cov_clears keeps_cov_then_clears) => [|?];
    [ first [ apply: (preserves_lift keeps_cov_refl)
            | apply: (preserves_get_list keeps_cov_refl)
            | apply: (preserves_get_matrix keeps_cov_refl)
            | apply: (preserves_get_jgd keeps_cov_refl)
            | keeps_cov_rules ] | ]
  | progress cbv zeta ].
Qed.

Lemma clears_marginalize self arg inplace :
  preserves clears (marginalize self arg inplace).
Proof.
case: arg => [s|R]; first by move=> h; apply/keeps_cov_clears/keeps_cov_refl.
rewrite marginalizeE.
apply: (preserves_bind_seq keeps_cov_clears keeps_cov_then_clears) => [|a].
  by case: inplace; [apply: (preserves_ret keeps_cov_refl) | apply: keeps_cov_copy].
exact: clears_marginalize_body.
Qed.

Lemma clears_run_call (inv : matrix -> option matrix) c h :
  clears h (run_call inv c h).
Proof.
case: c => [xs|vs m s|self|self arg ip|self] /=.
- exact/keeps_cov_clears/(keeps_cov_alloc (PyList _ xs)).
- exact/keeps_cov_clears/keeps_cov_init.
- exact/keeps_cov_clears/keeps_cov_precision_matrix.
- exact: clears_marginalize.
- exact/keeps_cov_clears/keeps_cov_copy.
Qed.

(** *** The cache invariant *)

Section Invariant.

Variable inv : matrix -> option matrix.

Local Notation cache_ok := (cache_ok inv).
Local Notation heap_ok := (heap_ok inv).
Local Notation inv_step := (inv_step inv).

Lemma stable_refl h : stable h h.
Proof. by move=> b; case: (deref h b). Qed.

Lemma stable_trans h1 h2 h3 : stable h1 h2 -> stable h2 h3 -> stable h1 h3.
Proof.
move=> H12 H23 b; move: (H12 b) (H23 b).
case: (deref h1 b) => [|s|m|d] //; try by move=> ->.
by case: (deref h2 b).
Qed.

Lemma stable_matrix h h' b m :
  stable h h' -> deref h b = PyMatrix _ m -> deref h' b = PyMatrix _ m.
Proof. by move=> /(_ b) H E; rewrite E in H. Qed.

Lemma cache_ok_stable h h' d : stable h h' -> cache_ok h d -> cache_ok h' d.
Proof.
move=> St H p /H[P [S [HP HS Hi]]]; exists P, S; split=> //;
  exact: stable_matrix St _.
Qed.

Lemma cache_ok_fields h d d' :
  covariance_matrix d' = covariance_matrix d ->
  _precision_matrix d' = _precision_matrix d ->
  cache_ok h d -> cache_ok h d'.
Proof. by move=> Ec Ep H p; rewrite Ep Ec; apply: H. Qed.

Lemma inv_step_refl h : inv_step h h.
Proof. by split; [apply: stable_refl | move=> a d Hd; right; exists d]. Qed.

Lemma inv_step_trans h1 h2 h3 : inv_step h1 h2 -> inv_step h2 h3 -> inv_step h1 h3.
Proof.
move=> [S1 J1] [S2 J2]; split; first exact: stable_trans S1 S2.
move=> a d'' /J2[|[d' [/J1[Hok|[d [Hd E1 E1']]] E2 E2']]]; first by left.
  by left; apply: cache_ok_fields E2 E2' (cache_ok_stable S2 Hok).
by right; exists d; split=> //; rewrite ?E2 ?E2'.
Qed.

Lemma heap_ok_step h h' : heap_ok h -> inv_step h h' -> heap_ok h'.
Proof.
move=> Hok [St J] a d' /J[//|[d [/Hok Hd Ec Ep]]].
exact: cache_ok_fields Ec Ep (cache_ok_stable St Hd).
Qed.

Lemma stable_rcons h o : stable h (rcons h o).
Proof.
move=> b; case E: (deref h b) => [|s|m|d] //;
  by rewrite deref_rcons_lt ?E //; apply: deref_obj_lt; rewrite E.
Qed.

Lemma inv_step_alloc_data o : ~~ is_jgd o -> preserves inv_step (@alloc ident F o).
Proof.
move=> Jo h; split; first exact: stable_rcons.
move=> a d' /=; rewrite deref_rcons; case: ltnP => [_ Hd|_]; first by right; exists d'.
by case: eqP => // _ E; rewrite E in Jo.
Qed.

Lemma inv_step_alloc_new vs m s :
  preserves inv_step (@alloc ident F (PyJGD _ _ (MkJGD vs m s None))).
Proof.
move=> h; split; first exact: stable_rcons.
move=> a d' /=; rewrite deref_rcons; case: ltnP => [_ Hd|_]; first by right; exists d'.
by case: eqP => // _ [<-]; left.
Qed.

Lemma inv_step_put h a d0 d' :
  deref h a = PyJGD _ _ d0 ->
  _precision_matrix d' = None \/
  (covariance_matrix d' = covariance_matrix d0 /\
   _precision_matrix d' = _precision_matrix d0) ->
  inv_step h (set_nth (PyNone _ _) h a (PyJGD _ _ d')).
Proof.
move=> Hd0 Hd'; split.
  move=> b; rewrite deref_set_nth; case: eqP => [->|_]; first by rewrite Hd0.
  by case: (deref h b).
move=> b d; rewrite deref_set_nth; case: eqP => [->[<-]|_ Hd]; last by right; exists d.
case: Hd' => [E|[Ec Ep]]; first by left=> p; rewrite E.
by right; exists d0.
Qed.

Lemma inv_step_setattr a f :
  (forall d, covariance_matrix (f d) = covariance_matrix d /\
             _precision_matrix (f d) = _precision_matrix d) ->
  preserves inv_step (@setattr ident F a f).
Proof.
move=> Hf h; rewrite /setattr; case E: (deref h a) => [| | |d0] /=;
  try exact: inv_step_refl.
by apply: inv_step_put E _; right.
Qed.

Lemma inv_step_last_assignments (A : Type) a x (r : A) :
  preserves inv_step
    (setattr a (fun d => set_covariance_matrix d x) ;;;
     setattr a (fun d => set_precision_matrix d None) ;;;
     @ret ident F A r).
Proof.
move=> h; rewrite /bind /setattr; case E: (deref h a) => [| | |d0] /=;
  try exact: inv_step_refl.
by rewrite deref_set_nth_same /= set_nth_twice; apply: inv_step_put E _; left.
Qed.

Ltac inv_step_rules :=
  first [ apply: inv_step_last_assignments
        | by apply: inv_step_alloc_data
        | apply: inv_step_alloc_new
        | by apply: inv_step_setattr ].

Lemma inv_step_init vs m s : preserves inv_step (@__init__ ident F vs m s).
Proof.
by rewrite /__init__; preserves_by inv_step_refl inv_step_trans inv_step_rules.
Qed.

Lemma inv_step_marginalize_body self R (ip : bool) a :
  preserves inv_step (marginalize_body (F:=F) self R ip a).
Proof.
by rewrite /marginalize_body;
  preserves_by inv_step_refl inv_step_trans inv_step_rules.
Qed.

Lemma heap_ok_precision_matrix h self :
  heap_ok h -> heap_ok (precision_matrix inv self h).2.
Proof.
move=> Hok; rewrite /precision_matrix /bind /get_jgd.
case Ed: (deref h self) => [| | |d] //=.
case Ep: (_precision_matrix d) => [p|] //=; rewrite /get_matrix.
case Es: (deref h (covariance_matrix d)) => [| |sigma|] //=.
have := precision_matrix_miss inv Ed Ep Es.
rewrite /precision_matrix /bind /get_jgd Ed Ep /get_matrix Es => ->.
case Ei: (inv sigma) => [P|] //=; rewrite -/(cached_heap h self d P).
have Hself : self < size h by apply: deref_obj_lt; rewrite Ed.
have St : stable h (cached_heap h self d P).
  move=> b; rewrite deref_cached //; case E: (deref h b) => [|s|m|d0] //;
    rewrite (@deref_obj_lt h b) ?E //; case: eqP => // Eb;
    by rewrite Eb Ed in E.
move=> a d1; rewrite deref_cached //; case: ltnP => [Ha|_]; last by case: eqP.
case: eqP => [_ [<-] p [<-]|_ /Hok Hd1]; last exact: cache_ok_stable St Hd1.
exists P, sigma; split=> //; first by rewrite deref_cached // ltnn eqxx.
exact: stable_matrix St Es.
Qed.

Lemma heap_ok_cat h (t : heap) :
  heap_ok h -> all (fun o => ~~ is_jgd o) t -> heap_ok (h ++ t).
Proof.
move=> Hok Ht; have St : stable h (h ++ t).
  move=> b; case E: (deref h b) => [|s|m|d] //;
    by rewrite deref_cat ?E //; apply: deref_obj_lt; rewrite E.
move=> a d; rewrite /deref nth_cat; case: ltnP => [_ /Hok|_ E].
  exact: cache_ok_stable St.
have: ~~ is_jgd (nth (PyNone _ _) t (a - size h)).
  case: (ltnP (a - size h) (size t)) => [Hlt|Hge]; first exact: (all_nthP _ Ht).
  by rewrite nth_default.
by rewrite E.
Qed.

Lemma heap_ok_copy h self : heap_ok h -> heap_ok (copy self h).2.
Proof.
move=> Hok; case Ed: (deref h self) => [| | |d];
  try by rewrite /copy /bind /get_jgd Ed.
case Em: (deref h (mean_vector d)) => [| |mu|];
  try by rewrite /copy /bind /get_jgd Ed /get_matrix Em.
case Es: (deref h (covariance_matrix d)) => [| |sigma|];
  try by rewrite /copy /bind /get_jgd Ed /get_matrix Em Es.
case EV: (deref h (variables d)) => [|V| |];
  try by rewrite /copy /bind /get_jgd Ed /get_matrix Em Es /__init__ /bind
                 /get_list EV.
have [[t -> Ht]|[mu' ->]] /= := copy_cases Ed EV Em Es; first exact: heap_ok_cat.
have [E1 E2 E3 E4 E5] := next_addr (size h).
have St : stable h (copied_heap h d mu' sigma).
  move=> b; rewrite deref_copied; case E: (deref h b) => [|s|m|d0] //;
    by rewrite (@deref_obj_lt h b) ?E.
move=> a d1; rewrite deref_copied; case: ltnP => [_ /Hok|_].
  exact: cache_ok_stable St.
do 2![case: eqP => // _]; case: eqP => // _ [<-] p /= /(Hok _ _ Ed)[P [S [HP HS Hi]]].
exists P, sigma; split; first exact: stable_matrix St HP.
  by rewrite deref_copied E1 E3 eqxx.
by move: HS; rewrite Es => -[->].
Qed.

Lemma heap_ok_marginalize h self arg inplace :
  heap_ok h -> heap_ok (marginalize self arg inplace h).2.
Proof.
case: arg => [s|R] // Hok; rewrite marginalizeE /bind.
case: inplace => /=.
  exact: heap_ok_step Hok (inv_step_marginalize_body self R true self h).
move: (@heap_ok_copy h self Hok); case: (copy self h) => [[c|e] h1] //= H1.
exact: heap_ok_step H1 (inv_step_marginalize_body self R false c h1).
Qed.

Lemma heap_ok_run_call c h : heap_ok h -> heap_ok (run_call inv c h).
Proof.
case: c => [xs|vs m s|self|self arg ip|self] /= Hok.
- exact: heap_ok_step Hok (@inv_step_alloc_data (PyList _ xs) isT h).
- exact: heap_ok_step Hok (inv_step_init vs m s h).
- exact: heap_ok_precision_matrix.
- exact: heap_ok_marginalize.
- exact: heap_ok_copy.
Qed.

Lemma heap_ok_reachable h : reachable inv h -> heap_ok h.
Proof.
elim=> [a d|h0 c _ IH]; last exact: heap_ok_run_call.
by rewrite /deref nth_nil.
Qed.

(** No call modifies a list or a matrix: the covariance of an instance
    changes only by the instance referring to another matrix. *)
Lemma stable_alloc o : preserves stable (@alloc ident F o).
Proof. by move=> h; apply: stable_rcons. Qed.

Lemma stable_setattr a f : preserves stable (@setattr ident F a f).
Proof.
move=> h; rewrite /setattr; case E: (deref h a) => [| | |d0] /=;
  try exact: stable_refl.
move=> b; rewrite deref_set_nth; case: eqP => [->|_]; first by rewrite E.
by case: (deref h b).
Qed.

Ltac stable_rules := first [ apply: stable_alloc | apply: stable_setattr ].

Lemma stable_init vs m s : preserves stable (@__init__ ident F vs m s).
Proof. by rewrite /__init__; preserves_by stable_refl stable_trans stable_rules. Qed.

Lemma stable_copy self : preserves stable (@copy ident F self).
Proof.
rewrite /copy;
  preserves_by stable_refl stable_trans
    ltac:(first [ apply: stable_init | stable_rules ]).
Qed.

Lemma stable_run_call c h : stable h (run_call inv c h).
Proof.
case: c => [xs|vs m s|self|self arg ip|self] /=.
- exact: stable_rcons.
- exact: stable_init.
- rewrite /precision_matrix; move: h; apply: (preserves_bind stable_trans) => [|d].
    exact: (preserves_get_jgd stable_refl).
  by case: (_precision_matrix d) => [p|];
    preserves_by stable_refl stable_trans stable_rules.
- case: arg => [s|R]; first exact: stable_refl.
  rewrite /marginalize; move: h;
    preserves_by stable_refl stable_trans
      ltac:(first [ apply: stable_copy | stable_rules ]).
- exact: stable_copy.
Qed.

End Invariant.

(** C6: in every store reachable by calls of the public operations, a
    cached precision matrix is what [np.linalg.inv] returns for the current
    covariance of its instance, hence its inverse.  A call that makes an
    instance refer to another covariance matrix leaves that instance without
    cache, and no call modifies a matrix in place, so that a cache can never
    be stale. *)
Theorem cache_invariant (inv : matrix -> option matrix) h :
  exact inv -> reachable inv h ->
  [/\ forall a v P, view h a = Some v -> cache v = Some P ->
        inv (cov v) = Some P /\ inverse_of P (cov v),
      forall c a d d', deref h a = PyJGD _ _ d ->
        deref (run_call inv c h) a = PyJGD _ _ d' ->
        covariance_matrix d' != covariance_matrix d ->
        _precision_matrix d' = None
    & forall c b m, deref h b = PyMatrix _ m ->
        deref (run_call inv c h) b = PyMatrix _ m].
Proof.
move=> Hex /heap_ok_reachable Hok; split.
- move=> a v P /view_inv[d [Hd _ _ Hs Hc]] EP.
  case Ep: (_precision_matrix d) Hc => [p|] /=; last by rewrite EP => -[].
  case EP0: (deref h p) => [| |P0|] //; rewrite EP => -[E0].
  have [P1 [S [HP1 HS Hi]]] := Hok _ _ Hd _ Ep.
  move: HP1 HS; rewrite EP0 Hs E0 => -[E1] [E2].
  by move: Hi (Hex S); rewrite -E1 -E2 => ->.
- move=> c a d d' Hd Hd' Hne.
  have [d'' Hd'' Hor] := clears_run_call inv c Hd.
  move: Hd'' Hor; rewrite Hd' => -[<-] [E|//].
  by rewrite E eqxx in Hne.
- by move=> c b m; apply: stable_matrix (stable_run_call inv c h).
Qed.

(** C9: a string passed for [variables] is refused with [TypeError]
    (the specification's InvalidArgumentError) before anything is read or
    written: the store is left as it was, the characters of the string are
    never looked up. *)
Theorem marginalize_bare_string (self : addr) (s : string) (inplace : bool) h :
  marginalize self (PyStr ident s) inplace h = (Raise TypeError, h).
Proof. by []. Qed.

(** C10: repeated identifiers in the removal list have no effect.  The call
    with [R] and the call with the duplicates of [R] removed run to the same
    result and the same store, whatever the store and whether or not the
    identifiers are known. *)
Theorem marginalize_duplicates (self : addr) (R : seq ident) (inplace : bool) h :
  marginalize self (PySeq R) inplace h =
  marginalize self (PySeq (undup R)) inplace h.
Proof.
rewrite /marginalize.
apply: bind_ext => distribution h1; apply: bind_ext => d h2.
apply: bind_ext => V h3; rewrite !omapM_list_index.
have -> : all (mem V) (undup R) = all (mem V) R.
  by apply: eq_all_r; apply: mem_undup.
case: (all _ R) => //; rewrite /lift /bind /ret /=.
case: (get_jgd self h3) => [[s|e] h4] //.
case: (get_list (variables s) h4) => [[Vs|e] h5] //.
rewrite !index_to_keep_filter.
have -> // : [seq i <- iota 0 (size Vs) | i \notin [seq index x V | x <- R]] =
          [seq i <- iota 0 (size Vs) | i \notin [seq index x V | x <- undup R]].
apply: eq_filter => i; congr negb; apply: eq_mem_map; exact/fsym/mem_undup.
Qed.

End Properties.

(** ** The example, run *)

Example ex_construct :
  __init__ 0 (Array2 ex_mean) (Array2 ex_cov) [:: PyList _ ex_variables] =
  (Return 3, ex_heap).
Proof. by []. Qed.

Example ex_view : view ex_heap 3 = Some ex_value.
Proof. by []. Qed.

Example ex_wf : wf_dist ex_value.
Proof. by []. Qed.

(** [dis.marginalize(['x3'])] of the docstring. *)
Example ex_marginalize :
  marginalize_result ex_heap 3 [:: "x3"%string] true =
  Some (DistValue [:: "x1"; "x2"]%string
          (Matrix 2 1 [:: [:: 1]; [:: -3]])
          (Matrix 2 2 [:: [:: 4; 2]; [:: 2; 5]]) None).
Proof. by []. Qed.

(** Why the variables of a distribution are taken distinct: [list.index]
    finds the first occurrence only, so with a name that occurs twice
    [marginalize] keeps the second occurrence. *)
Example ex_duplicate_name :
  marginalize_result
    [:: PyList _ [:: "a"; "a"]%string; PyMatrix _ (Matrix 2 1 [:: [:: 1]; [:: 2]]);
        PyMatrix _ (Matrix 2 2 [:: [:: 1; 0]; [:: 0; 3 : rat]]);
        PyJGD _ _ (MkJGD 0 1 2 None)]
    3 [:: "a"%string] true =
  Some (DistValue [:: "a"%string] (Matrix 1 1 [:: [:: 2]])
          (Matrix 1 1 [:: [:: 3]]) None).
Proof. by []. Qed.

(** The precision matrix printed in the docstrings is the inverse of the
    covariance of the example, so it is what [dis.precision_matrix]
    returns, whatever the exact library. *)
Example ex_precision_inverse : inverse_of ex_precision ex_cov.
Proof.
split=> //=.
apply/matrixP => i j; rewrite !mxE !big_ord_recl big_ord0 !mxE /=.
case: i => [[|[|[|i]]] Hi] //; case: j => [[|[|[|j]]] Hj] //=;
  by vm_compute.
Qed.

Example ex_precision_matrix (inv : matrix rat -> option (matrix rat)) :
  exact inv ->
  precision_matrix inv 3 ex_heap =
  (Return 4, ex_cached_heap).
Proof.
move=> /(_ ex_cov) Hex.
have Hd : deref ex_heap 3 = PyJGD _ _ (MkJGD 0 1 2 None) by [].
have Hs : deref ex_heap 2 = PyMatrix _ ex_cov by [].
rewrite (precision_matrix_miss inv Hd erefl Hs).
case: (inv ex_cov) Hex => [P /inverse_of_inj/(_ ex_precision_inverse) -> //|[]].
by exists ex_precision; apply: ex_precision_inverse.
Qed.

Lemma marginalize_correct_witness :
  [/\ view ex_heap 3 = Some ex_value, wf_dist ex_value,
      all (mem (vars ex_value)) [:: "x3"%string]
    & [/\ marginalize_result ex_heap 3 [:: "x3"%string] true =
          Some (marginal ex_value [:: "x3"%string]),
          forall R', perm_eq R' [:: "x3"%string] ->
            marginalize_result ex_heap 3 R' true =
            marginalize_result ex_heap 3 [:: "x3"%string] true,
          all (mem [:: "x3"%string]) (vars ex_value) ->
            marginalize_result ex_heap 3 [:: "x3"%string] true =
            Some (DistValue [::] (Matrix 0 1 [::]) (Matrix 0 0 [::]) None)
        & marginalize_result ex_heap 3 [::] true =
          Some (DistValue (vars ex_value) (mean ex_value) (cov ex_value) None)]].
Proof.
split=> //.
exact: (@marginalize_correct _ _ ex_heap 3 ex_value [:: "x3"%string] true).
Defined.

Lemma marginalize_unknown_variable_witness :
  [/\ view ex_heap 3 = Some ex_value,
      ~~ all (mem (vars ex_value)) [:: "x4"%string]
    & exists t,
        [/\ marginalize 3 (PySeq [:: "x4"%string]) true ex_heap =
            (Raise ValueError, ex_heap ++ t),
            view (ex_heap ++ t) 3 = Some ex_value
          & true -> t = [::]]].
Proof.
split=> //.
exact: (@marginalize_unknown_variable _ _ ex_heap 3 ex_value [:: "x4"%string] true).
Defined.

Lemma marginalize_inplace_flag_witness :
  [/\ view ex_heap 3 = Some ex_value, wf_dist ex_value,
      all (mem (vars ex_value)) [:: "x3"%string]
    & (exists c t,
         [/\ marginalize 3 (PySeq [:: "x3"%string]) false ex_heap =
             (Return (Some c), ex_heap ++ t),
             view (ex_heap ++ t) 3 = Some ex_value,
             size ex_heap <= c,
             view (ex_heap ++ t) c = Some (marginal ex_value [:: "x3"%string])
           & exists d', [/\ deref (ex_heap ++ t) c = PyJGD _ _ d',
                            size ex_heap <= variables d',
                            size ex_heap <= mean_vector d',
                            size ex_heap <= covariance_matrix d'
                          & _precision_matrix d' = None]]) /\
      (exists h',
         marginalize 3 (PySeq [:: "x3"%string]) true ex_heap = (Return None, h') /\
         view h' 3 = Some (marginal ex_value [:: "x3"%string]))].
Proof.
split=> //.
exact: (@marginalize_inplace_flag _ _ ex_heap 3 ex_value [:: "x3"%string]).
Defined.

(** Matching lengths do not make the constructor succeed.  The mean
    [ex_wide_mean] has [len] 3 for three variables and the covariance is
    3 x 3, yet [np.reshape] refuses it; the mean [ex_row_mean] holds the
    three scalars of a column of length 3, yet [len] is 1 and the
    constructor refuses it. *)
Lemma init_length_not_enough :
  [/\ len ex_wide_mean = size ex_variables,
      size (ravel ex_row_mean) = size ex_variables,
      shape (np_matrix (Array2 ex_cov)) = (size ex_variables, size ex_variables),
      __init__ 0 ex_wide_mean (Array2 ex_cov) [:: PyList _ ex_variables] =
      (Raise ValueError, [:: PyList _ ex_variables])
    & __init__ 0 ex_row_mean (Array2 ex_cov) [:: PyList _ ex_variables] =
      (Raise ValueError, [:: PyList _ ex_variables])].
Proof. by []. Qed.

Lemma init_dimensions_witness :
  [/\ deref [:: PyList rat ex_variables] 0 = PyList _ ex_variables,
      exists t, __init__ 0 (Array1 [:: 1; 2 : rat]) (Array2 ex_cov)
                  [:: PyList _ ex_variables] =
                (Raise ValueError, [:: PyList _ ex_variables] ++ t),
      exists t, __init__ 0 (Array2 ex_mean) (Array2 ex_mean)
                  [:: PyList _ ex_variables] =
                (Raise ValueError, [:: PyList _ ex_variables] ++ t)
    & exists self h',
        [/\ __init__ 0 (Array2 ex_mean) (Array2 ex_cov)
              [:: PyList _ ex_variables] = (Return self, h'),
            view h' self = Some ex_value
          & exists d, [/\ deref h' self = PyJGD _ _ d, variables d = 0
                        & _precision_matrix d = None]]].
Proof.
have H0 : deref [:: PyList rat ex_variables] 0 = PyList _ ex_variables by [].
split=> //.
- by have [H _ _] := init_dimensions (Array1 [:: 1; 2 : rat]) (Array2 ex_cov) H0;
    apply: H.
- by have [_ H _] := init_dimensions (Array2 ex_mean) (Array2 ex_mean) H0;
    apply: H.
- by have [_ _ H] := init_dimensions (Array2 ex_mean) (Array2 ex_cov) H0;
    apply: H.
Defined.

Lemma precision_matrix_singular_witness :
  [/\ exact (@exact_inv rat),
      view null_heap 3 = Some null_value /\ view unit_heap 3 = Some unit_value,
      ~ invertible (cov null_value) /\ invertible (cov unit_value),
      precision_matrix (@exact_inv rat) 3 null_heap = (Raise LinAlgError, null_heap)
    & exists a h', precision_matrix (@exact_inv rat) 3 unit_heap = (Return a, h')].
Proof.
have Hn : view null_heap 3 = Some null_value by [].
have Hu : view unit_heap 3 = Some unit_value by [].
split=> //; first exact: exact_inv_exact.
- by split; [apply: singular_null | apply: invertible_unit].
- have Hc : forall P, cache null_value = Some P -> inverse_of P (cov null_value).
    by [].
  have [H _] := precision_matrix_singular (@exact_inv_exact rat) Hn Hc.
  exact/H/singular_null.
- have Hc : forall P, cache unit_value = Some P -> inverse_of P (cov unit_value).
    by [].
  have [_ H] := precision_matrix_singular (@exact_inv_exact rat) Hu Hc.
  exact/H/invertible_unit.
Defined.

Lemma precision_matrix_cached_witness :
  [/\ exact (@exact_inv rat), view unit_heap 3 = Some unit_value,
      wf_dist unit_value /\ cache unit_value = None,
      invertible (cov unit_value)
    & exists P a h1,
        [/\ precision_matrix (@exact_inv rat) 3 unit_heap = (Return a, h1),
            deref h1 a = PyMatrix _ P /\ inverse_of P (cov unit_value),
            view h1 3 =
            Some (DistValue (vars unit_value) (mean unit_value)
                            (cov unit_value) (Some P)),
            precision_matrix (@exact_inv rat) 3 h1 = (Return a, h1)
          & forall R : seq string, all (mem (vars unit_value)) R ->
              let h2 := (marginalize 3 (PySeq R) true h1).2 in
              view h2 3 = Some (marginal unit_value R) /\
              match exact_inv (cov (marginal unit_value R)) with
              | Some P' =>
                  exists a' h3,
                    [/\ precision_matrix (@exact_inv rat) 3 h2 = (Return a', h3),
                        deref h3 a' = PyMatrix _ P',
                        inverse_of P' (cov (marginal unit_value R)) & a' != a]
              | None =>
                  precision_matrix (@exact_inv rat) 3 h2 = (Raise LinAlgError, h2)
              end]].
Proof.
have Hu : view unit_heap 3 = Some unit_value by [].
have Hw : wf_dist unit_value by [].
have Hc : cache unit_value = None by [].
split=> //; first exact: exact_inv_exact.
  exact: invertible_unit.
exact: (precision_matrix_cached (@exact_inv_exact rat) Hu Hw Hc
          (invertible_unit rat)).
Defined.

Lemma cache_invariant_witness :
  [/\ exact (@exact_inv rat), reachable (@exact_inv rat) reached_heap
    & [/\ forall a v P, view reached_heap a = Some v -> cache v = Some P ->
            exact_inv (cov v) = Some P /\ inverse_of P (cov v),
          forall c a d d', deref reached_heap a = PyJGD _ _ d ->
            deref (run_call (@exact_inv rat) c reached_heap) a = PyJGD _ _ d' ->
            covariance_matrix d' != covariance_matrix d ->
            _precision_matrix d' = None
        & forall c b m, deref reached_heap b = PyMatrix _ m ->
            deref (run_call (@exact_inv rat) c reached_heap) b = PyMatrix _ m]].
Proof.
have Hr : reachable (@exact_inv rat) reached_heap.
  by do 3!apply: reachable_call; apply: reachable_empty.
split=> //; first exact: exact_inv_exact.
exact: (cache_invariant (@exact_inv_exact rat) Hr).
Defined.

(** After [c = dis.copy()], the assignment [dis.variables[0] = 'y'] changes
    the variables of [c], and a write into the matrix returned by
    [dis.precision_matrix] changes the cached precision of [c]: the list of
    variables and the cached matrix are one object for both instances. *)
Lemma copy_shares_storage :
  [/\ [/\ copy 3 ex_heap = (Return 6, ex_copy_heap),
          view ex_copy_heap 3 = Some ex_value,
          view ex_copy_heap 6 = Some ex_value,
          deref ex_copy_heap 3 = PyJGD _ _ (MkJGD 0 1 2 None)
        & vars_after_setitem = Some [:: "y"; "x2"; "x3"]%string],
      copy 3 ex_cached_heap = (Return 7, ex_cached_copy_heap),
      view ex_cached_copy_heap 7 =
      Some (DistValue ex_variables ex_mean ex_cov (Some ex_precision)),
      deref ex_cached_copy_heap 3 = PyJGD _ _ (MkJGD 0 1 2 (Some 4))
    & view (mutate 4 (PyMatrix _ ex_cov) ex_cached_copy_heap).2 7 =
      Some (DistValue ex_variables ex_mean ex_cov (Some ex_cov))].
Proof. by []. Qed.

Lemma copy_independent_witness :
  [/\ view ex_heap 3 = Some ex_value, consistent ex_value
    & exists c t dc,
        [/\ [/\ copy 3 ex_heap = (Return c, ex_heap ++ t), size ex_heap <= c,
                deref (ex_heap ++ t) c = PyJGD _ _ dc,
                size ex_heap <= mean_vector dc
              & size ex_heap <= covariance_matrix dc],
            view (ex_heap ++ t) 3 = Some ex_value /\
            view (ex_heap ++ t) c = Some ex_value,
            forall a o, a < size ex_heap ->
              deref (mutate a o (ex_heap ++ t)).2 (mean_vector dc) =
              PyMatrix _ (mean ex_value) /\
              deref (mutate a o (ex_heap ++ t)).2 (covariance_matrix dc) =
              PyMatrix _ (cov ex_value),
            forall o,
              view (mutate (mean_vector dc) o (ex_heap ++ t)).2 3 =
              Some ex_value /\
              view (mutate (covariance_matrix dc) o (ex_heap ++ t)).2 3 =
              Some ex_value
          & forall arg,
              [/\ view (marginalize 3 arg true (ex_heap ++ t)).2 c = Some ex_value,
                  view (marginalize c arg true (ex_heap ++ t)).2 3 = Some ex_value,
                  view (precision_matrix (@exact_inv rat) 3 (ex_heap ++ t)).2 c =
                  Some ex_value
                & view (precision_matrix (@exact_inv rat) c (ex_heap ++ t)).2 3 =
                  Some ex_value]]].
Proof.
have Hv : view ex_heap 3 = Some ex_value by [].
have Hc : consistent ex_value by [].
split; [exact: Hv | exact: Hc |].
exact: (copy_independent (@exact_inv rat) Hv Hc).
Defined.

(** ** Further properties *)

Section Further.

Variable ident : eqType.
Variable F : fieldType.

Local Notation matrix := (matrix F).
Local Notation pyobj := (pyobj ident F).
Local Notation heap := (heap ident F).
Local Notation M := (M ident F).

Implicit Types (h : heap) (a b : addr) (o : pyobj) (arg : py_arg ident).
Implicit Types (v w : dist_value ident F) (V R : seq ident).

(** *** Masks of masks *)

Lemma count_keep_mask V R :
  count id (keep_mask V R) = size [seq x <- V | x \notin R].
Proof. by rewrite /keep_mask count_map size_filter. Qed.

Lemma size_keep_mask V R : size (keep_mask V R) = size V.
Proof. by rewrite /keep_mask size_map. Qed.

Lemma mask_keep_mask (T : Type) V (R1 R2 : seq ident) (s : seq T) :
  mask (keep_mask [seq x <- V | x \notin R1] R2) (mask (keep_mask V R1) s) =
  mask (keep_mask V (R1 ++ R2)) s.
Proof.
rewrite /keep_mask; elim: V s => [|x V IH] [|y s] //=; first by rewrite !mask0.
by rewrite mem_cat negb_or; case: (x \in R1) => /=; rewrite IH.
Qed.

Lemma marginal_marginal v (R1 R2 : seq ident) :
  marginal (marginal v R1) R2 = marginal v (R1 ++ R2).
Proof.
have Ec : count id (keep_mask [seq x <- vars v | x \notin R1] R2) =
          count id (keep_mask (vars v) (R1 ++ R2)).
  rewrite !count_keep_mask -filter_predI; congr size; apply: eq_filter => x /=.
  by rewrite mem_cat negb_or andbC.
rewrite /marginal /= /sub_vector /principal_submatrix /= Ec mask_keep_mask.
congr DistValue.
- rewrite -filter_predI; apply: eq_filter => x /=.
  by rewrite mem_cat negb_or andbC.
- congr Matrix; rewrite -map_mask mask_keep_mask -map_comp.
  by apply: eq_map => r /=; rewrite mask_keep_mask.
Qed.

Lemma nth_mask_index (T : Type) (x0 : T) (p : pred ident) V (s : seq T) x :
  x \in V -> p x ->
  nth x0 (mask [seq p y | y <- V] s) (index x [seq y <- V | p y]) =
  nth x0 s (index x V).
Proof.
move=> xV px; elim: V s xV => [|z V IH] [|y s] //=.
- by rewrite !nth_nil.
- rewrite inE eq_sym; case: (z =P x) => [->|/eqP/negbTE Hzx] /=.
    by rewrite px /= eqxx.
  by move=> /IH {}IH; case: (p z) => /=; rewrite ?Hzx /= IH.
Qed.

(** *** The marginal is again a distribution of the data model *)

Lemma consistent_mask (b : bitseq) V (mu sigma : matrix) (c : option matrix) :
  size b = size V -> consistent (DistValue V mu sigma c) ->
  consistent (DistValue (mask b V) (sub_vector b mu)
                        (principal_submatrix b sigma) None).
Proof.
move=> Hb /and4P[/= /andP[/eqP Hm /allP Hmr] /eqP[Erm Ecm]].
move=> /andP[/eqP Hs /allP Hsr] /eqP[Ers Ecs].
have Hbm : size b = size (rows mu) by rewrite Hm Erm.
have Hbs : size b = size (rows sigma) by rewrite Hs Ers.
apply/and4P; split; rewrite /sub_vector /principal_submatrix /shape /=.
- rewrite /wf_matrix /= size_mask // eqxx /=.
  by apply/allP => r /mem_mask /Hmr.
- by rewrite size_mask // Ecm.
- rewrite /wf_matrix /= size_map size_mask // eqxx /=.
  apply/allP => r /mapP[r' /mem_mask /Hsr /eqP Hr' ->].
  by rewrite size_mask // Hr' Ecs.
- by rewrite size_mask.
Qed.

Lemma wf_dist_marginal v R : wf_dist v -> wf_dist (marginal v R).
Proof.
case/andP => uV cv; apply/andP; split; first exact: filter_uniq.
rewrite /marginal filter_mask -/(keep_mask (vars v) R).
apply: (@consistent_mask _ _ _ _ (cache v)); first by rewrite size_keep_mask.
by case: v cv {uV}.
Qed.

Lemma size_marginal V R :
  uniq V -> all (mem V) R ->
  size [seq x <- V | x \notin R] = (size V - size (undup R))%N.
Proof.
move=> uV /allP RV.
have <- : count (mem R) V = size (undup R).
  rewrite -size_filter; apply/perm_size/uniq_perm.
  - exact: filter_uniq.
  - exact: undup_uniq.
  move=> x; rewrite mem_filter mem_undup /=.
  by case xR: (x \in R) => //=; apply: RV.
by rewrite size_filter -(count_predC (mem R) V) addKn.
Qed.

(** The store and the receiver after [marginalize] in place. *)
Lemma marginalize_inplace_view h self v R :
  view h self = Some v -> wf_dist v -> all (mem (vars v)) R ->
  view (marginalize self (PySeq R) true h).2 self = Some (marginal v R).
Proof.
move=> Hv wfv HR; have [d [Hd HV Hm Hs _]] := view_inv Hv.
have Hself : self < size h by apply: deref_obj_lt; rewrite Hd.
rewrite (marginalize_run true Hd HV Hm Hs wfv HR) /marginalize_heap /=.
by rewrite view_marginalized.
Qed.

Lemma marginalize_unknown_inplace h self v R :
  view h self = Some v -> ~~ all (mem (vars v)) R ->
  marginalize self (PySeq R) true h = (Raise ValueError, h).
Proof.
case/view_inv => d [Hd HV _ _ _] /negbTE HR.
by rewrite /marginalize /bind /ret /get_jgd Hd /get_list HV omapM_list_index HR.
Qed.

(** X1: the marginal of a distribution of the data model is again one:
    its variables are distinct and its mean and covariance have the
    matching dimensions; it has as many variables as the receiver had, less
    the number of distinct identifiers removed. *)
Theorem marginalize_dimension h self v R inplace :
  view h self = Some v -> wf_dist v -> all (mem (vars v)) R ->
  exists2 w, marginalize_result h self R inplace = Some w &
    wf_dist w /\ size (vars w) = (size (vars v) - size (undup R))%N.
Proof.
move=> Hv wfv HR; exists (marginal v R).
  exact: marginalize_result_marginal.
split; first exact: wf_dist_marginal.
by case/andP: wfv => uV _; rewrite /= size_marginal.
Qed.

(** *** Entries of the marginal *)

Lemma nth_map_mask (b : bitseq) (s : seq (seq F)) i :
  nth [::] [seq mask b r | r <- s] i = mask b (nth [::] s i).
Proof.
case: (ltnP i (size s)) => Hi; first by rewrite (nth_map [::]).
by rewrite !nth_default ?size_map // mask0.
Qed.

(** X2: looked up by name, nothing changes for the variables that stay.
    A variable is in the marginal exactly when it was in the distribution
    and is not removed, and for kept variables [x] and [y] the mean of [x]
    and the covariance of [x] and [y], found through [variables.index], are
    what they were before the call. *)
Theorem marginalize_by_name h self v R inplace :
  view h self = Some v -> wf_dist v -> all (mem (vars v)) R ->
  exists2 w, marginalize_result h self R inplace = Some w &
    (forall x, (x \in vars w) = (x \in vars v) && (x \notin R)) /\
    (forall x y, x \in vars w -> y \in vars w ->
       mean_of w x = mean_of v x /\ cov_of w x y = cov_of v x y).
Proof.
move=> Hv wfv HR; exists (marginal v R).
  exact: marginalize_result_marginal.
have mem_w x : (x \in vars (marginal v R)) = (x \in vars v) && (x \notin R).
  by rewrite /= mem_filter andbC.
split=> // x y; rewrite !mem_w => /andP[xV xR] /andP[yV yR].
rewrite /mean_of /cov_of /entry /= /keep_mask.
by rewrite nth_map_mask !(@nth_mask_index _ _ (fun z => z \notin R)).
Qed.

Lemma entry_take_ix (m : matrix) (I J : seq nat) (r c : nat) i j :
  entry (Matrix r c [seq [seq entry m i' j' | j' <- J] | i' <- I]) i j =
  if (i < size I) && (j < size J) then entry m (nth 0%N I i) (nth 0%N J j) else 0.
Proof.
rewrite {1}/entry /=; case: (ltnP i (size I)) => Hi /=; last first.
  by rewrite [nth [::] _ _]nth_default ?size_map ?nth_nil.
rewrite (nth_map 0%N) //; case: (ltnP j (size J)) => Hj.
  by rewrite (nth_map 0%N).
by rewrite nth_default // size_map.
Qed.

Lemma take_ix_symmetric (m m' : matrix) (I : seq nat) :
  take_ix m I I = Some m' -> symmetric m -> symmetric m'.
Proof.
rewrite /take_ix; case: ifP => // _ [<-] Hm i j.
by rewrite !(@entry_take_ix m I I) andbC; case: ifP.
Qed.

Lemma principal_submatrix_take_ix V R (sigma : matrix) :
  uniq V -> all (mem V) R -> wf_matrix sigma -> shape sigma = (size V, size V) ->
  exists I, take_ix sigma I I = Some (principal_submatrix (keep_mask V R) sigma).
Proof.
move=> uV HR wfs [Er Ec].
exists [seq i <- iota 0 (nrows sigma) | i \notin [seq index x V | x <- R]].
by rewrite take_ix_filter ?Er ?Ec // keep_mask_iota.
Qed.

(** X3: [marginalize] keeps a symmetric covariance symmetric, because
    [np.ix_] selects the same positions for rows and columns. *)
Theorem marginalize_symmetric h self v R inplace :
  view h self = Some v -> wf_dist v -> all (mem (vars v)) R ->
  symmetric (cov v) ->
  exists2 w, marginalize_result h self R inplace = Some w & symmetric (cov w).
Proof.
move=> Hv wfv HR Hsym; exists (marginal v R).
  exact: marginalize_result_marginal.
case/andP: wfv => uV /and4P[_ _ wfs /eqP shs].
have [I E] := principal_submatrix_take_ix uV HR wfs shs.
exact: take_ix_symmetric E Hsym.
Qed.

(** *** Successive marginalizations *)

(** X4: marginalizing in place over [R1] and then marginalizing over
    [R2] (variables of the distribution, none of them in [R1]) gives the
    distribution that one call with [R1 + R2] gives, and the two calls may
    be made in either order. *)
Theorem marginalize_compose h self v (R1 R2 : seq ident) inplace :
  view h self = Some v -> wf_dist v ->
  all (mem (vars v)) R1 -> all (mem (vars v)) R2 -> ~~ has (mem R1) R2 ->
  let after R := (marginalize self (PySeq R) true h).2 in
  [/\ marginalize_result (after R1) self R2 inplace =
      Some (marginal v (R1 ++ R2)),
      marginalize_result h self (R1 ++ R2) inplace =
      Some (marginal v (R1 ++ R2))
    & marginalize_result (after R2) self R1 inplace =
      marginalize_result (after R1) self R2 inplace].
Proof.
move=> Hv wfv HR1 HR2 /hasPn D after.
have step (Ra Rb : seq ident) :
    all (mem (vars v)) Ra -> all (mem (vars v)) Rb ->
    (forall x, x \in Rb -> x \notin Ra) ->
    marginalize_result (after Ra) self Rb inplace = Some (marginal v (Ra ++ Rb)).
  move=> Ha /allP Hb Dab.
  rewrite (marginalize_result_marginal inplace
             (marginalize_inplace_view Hv wfv Ha) (wf_dist_marginal Ra wfv)).
    by apply/allP => x xb; rewrite /= mem_filter Dab //=; apply: Hb.
  by rewrite marginal_marginal.
have D' x : x \in R1 -> x \notin R2.
  by move=> x1; apply/negP => /D; rewrite /= x1.
split.
- exact: step.
- by rewrite (marginalize_result_marginal inplace Hv wfv) // all_cat HR1.
- rewrite !step //; congr Some; apply: marginal_eq_mem => x.
  by rewrite !mem_cat orbC.
Qed.

(** X5: a variable can be marginalized out only once.  After an in-place
    [marginalize] over [R], a second in-place call that names one of the
    removed variables raises [ValueError] and leaves the store, hence the
    marginal, as it was. *)
Theorem marginalize_twice h self v (R R' : seq ident) :
  view h self = Some v -> wf_dist v -> all (mem (vars v)) R ->
  has (mem R) R' ->
  let h1 := (marginalize self (PySeq R) true h).2 in
  view h1 self = Some (marginal v R) /\
  marginalize self (PySeq R') true h1 = (Raise ValueError, h1).
Proof.
move=> Hv wfv HR /hasP[x xR' xR] h1.
have Hv1 : view h1 self = Some (marginal v R) by apply: marginalize_inplace_view.
split=> //; apply: (marginalize_unknown_inplace Hv1).
have {}xR : x \in R by [].
by apply/allPn; exists x => //=; rewrite mem_filter negb_and negbK xR.
Qed.

(** *** [marginalize] out of place is [copy], then [marginalize] in place *)

Lemma copy_inv h self c h1 :
  copy self h = (Return c, h1) ->
  exists d mu sigma,
    [/\ deref h self = PyJGD _ _ d, c = (size h).+2
      & h1 = copied_heap h d mu sigma].
Proof.
rewrite /copy /bind /get_jgd; case Ed: (deref h self) => [| | |d] //.
rewrite /get_matrix; case Em: (deref h (mean_vector d)) => [| |mu|] //.
case Es: (deref h (covariance_matrix d)) => [| |sigma|] //.
rewrite /__init__ /bind /get_list; case EV: (deref h (variables d)) => [|V| |] //.
case: eqP => //= _; rewrite /np_reshape_n1; case: eqP => //= _.
rewrite /alloc; case: eqP => //= _.
rewrite /setattr !size_rcons.
set h2 := rcons (rcons h _) _.
have <- : size h2 = (size h).+2 by rewrite !size_rcons.
rewrite deref_rcons_new /= set_nth_rcons_last => -[<- <-].
by exists d; do 2!eexists; split=> //; rewrite /copied_heap /h2 !size_rcons.
Qed.

Ltac split_matches :=
  repeat (match goal with
          | |- context [match ?x with _ => _ end] => destruct x
          end; simpl; try reflexivity).

Lemma marginalize_body_of_copy h self c (d dc : JGD) R :
  deref h self = PyJGD _ _ d -> deref h c = PyJGD _ _ dc ->
  variables dc = variables d ->
  marginalize_body (F:=F) self R false c h =
  bind (marginalize_body c R true c) (fun _ => ret (Some c)) h.
Proof.
move=> Hd Hc Ev.
rewrite /marginalize_body /bind /get_jgd Hc Ev /get_list.
case E: (deref h (variables d)) => [|V| |] //=.
rewrite /lift; case: (omapM _ R) => [idx|] //=.
rewrite /ret /raise Hd Hc Ev /= E /=.
by split_matches.
Qed.

(** X6: [marginalize(R, inplace=False)] is [c = self.copy()] followed by
    [c.marginalize(R)] in place, returning [c]: same result and same store,
    in every store and also when a step raises.  The kept positions are
    computed from [len(self.variables)], not from the copy; the two agree
    because [copy] passes on the list of variables. *)
Theorem marginalize_not_inplace h self R :
  marginalize self (PySeq R) false h = copy_then_marginalize self R h.
Proof.
rewrite /copy_then_marginalize marginalizeE /bind.
case E: (copy self h) => [[c|e] h1] //.
have [d [mu [sigma [Hd Ec Eh]]]] := copy_inv E.
have Hself : self < size h by apply: deref_obj_lt; rewrite Hd.
have [E1 E2 E3 E4 E5] := next_addr (size h).
set dc := MkJGD (variables d) (size h) (size h).+1 (_precision_matrix d).
have Hd1 : deref h1 self = PyJGD _ _ d by rewrite Eh deref_copied Hself.
have Hc1 : deref h1 c = PyJGD _ _ dc by rewrite Eh Ec deref_copied E2 E4 E5 eqxx.
by rewrite (marginalize_body_of_copy R Hd1 Hc1 erefl) marginalizeE.
Qed.

(** *** What [precision_matrix] leaves alone *)

Lemma dist_value_eta v : DistValue (vars v) (mean v) (cov v) (cache v) = v.
Proof. by case: v. Qed.

(** X7: [precision_matrix], with any [np.linalg.inv] whatever, changes
    neither the variables nor the mean nor the covariance of any
    distribution; the only cache it can change is the unset cache of the
    receiver.  When it raises, the store is exactly as before. *)
Theorem precision_matrix_frame (inv : matrix -> option matrix) h self c v :
  view h c = Some v ->
  (exists2 p, view (precision_matrix inv self h).2 c =
              Some (DistValue (vars v) (mean v) (cov v) p) &
              c <> self \/ cache v <> None -> p = cache v) /\
  (forall e, (precision_matrix inv self h).1 = Raise e ->
             (precision_matrix inv self h).2 = h).
Proof.
move=> Hv.
have same : (precision_matrix inv self h).2 = h ->
    exists2 p, view (precision_matrix inv self h).2 c =
               Some (DistValue (vars v) (mean v) (cov v) p) &
               c <> self \/ cache v <> None -> p = cache v.
  by move=> ->; exists (cache v) => //; rewrite dist_value_eta.
case Ed: (deref h self) => [| | |d];
  try by split=> [|e _]; [apply: same|]; rewrite /precision_matrix /bind /get_jgd Ed.
case Ep: (_precision_matrix d) => [p|].
  by split=> [|e _]; [apply: same|]; rewrite (precision_matrix_hit inv Ed Ep).
case Es: (deref h (covariance_matrix d)) => [| |sigma|];
  try by split=> [|e _]; [apply: same|];
         rewrite /precision_matrix /bind /get_jgd Ed Ep /get_matrix Es.
have Em := precision_matrix_miss inv Ed Ep Es.
case Ei: (inv sigma) Em => [P|] Em; last first.
  by split=> [|e _]; [apply: same|]; rewrite Em.
split; last by rewrite Em.
rewrite Em /= -/(cached_heap h self d P).
have Hself : self < size h by apply: deref_obj_lt; rewrite Ed.
have old b : is_obj (deref h b) -> ~~ is_jgd (deref h b) ->
    deref (cached_heap h self d P) b = deref h b.
  move=> Ho Jo; rewrite deref_cached // (deref_obj_lt Ho).
  by rewrite (@neq_by_class _ _ h self b) // Ed.
case: (c =P self) => [Ec|Nc]; last first.
  exists (cache v); last by [].
  rewrite dist_value_eta; apply: view_frame Hv _ => b Ho /orP[/eqP Eb|Jb].
    rewrite deref_cached // (deref_obj_lt Ho) Eb.
    by case: eqP => // /Nc.
  exact: old.
have [d' [Hd' HV Hm Hs' Hc]] := view_inv Hv.
move: Hd' HV Hm Hs' Hc; rewrite Ec Ed => -[<-] HV Hm Hs' Hc.
have Ecache : cache v = None by move: Hc; rewrite Ep /= => -[].
exists (Some P); last by rewrite Ecache; case.
apply: (@view_intro _ _ _ _ (set_precision_matrix d (Some (size h)))) => /=.
- by rewrite deref_cached // Hself eqxx.
- by rewrite old ?HV.
- by rewrite old ?Hm.
- by rewrite old ?Hs'.
- by rewrite deref_cached // ltnn eqxx.
Qed.

(** *** The dimension invariant *)

Lemma stable_list h h' b V :
  stable h h' -> deref h b = PyList _ V -> deref h' b = PyList _ V.
Proof. by move=> /(_ b) H E; rewrite E in H. Qed.

Lemma fields_ok_stable h h' d : stable h h' -> fields_ok h d -> fields_ok h' d.
Proof.
move=> St [V [mu [sigma [HV Hm Hs Hc]]]]; exists V, mu, sigma; split=> //.
- exact: stable_list St HV.
- exact: stable_matrix St Hm.
- exact: stable_matrix St Hs.
Qed.

Lemma fields_ok_eq h d d' :
  variables d' = variables d -> mean_vector d' = mean_vector d ->
  covariance_matrix d' = covariance_matrix d ->
  fields_ok h d -> fields_ok h d'.
Proof. by rewrite /fields_ok => -> -> ->. Qed.

Lemma stable_cat h (t : heap) : stable h (h ++ t).
Proof.
move=> b; case E: (deref h b) => [|s|m|d] //;
  by rewrite deref_cat ?E //; apply: deref_obj_lt; rewrite E.
Qed.

Lemma dims_ok_cat h (t : heap) :
  dims_ok h -> all (fun o => ~~ is_jgd o) t -> dims_ok (h ++ t).
Proof.
move=> Hok Ht a d; rewrite /deref nth_cat; case: ltnP => [_ /Hok|_ E].
  exact: fields_ok_stable (stable_cat h t).
have: ~~ is_jgd (nth (PyNone _ _) t (a - size h)).
  case: (ltnP (a - size h) (size t)) => [Hlt|Hge]; first exact: (all_nthP _ Ht).
  by rewrite nth_default.
by rewrite E.
Qed.

Lemma stable_copied h d (mu sigma : matrix) : stable h (copied_heap h d mu sigma).
Proof. by rewrite copied_heap_cat; apply: stable_cat. Qed.

Lemma dims_ok_copied h d V (mu sigma : matrix) :
  dims_ok h -> deref h (variables d) = PyList _ V ->
  consistent (DistValue V mu sigma None) ->
  dims_ok (copied_heap h d mu sigma).
Proof.
move=> Hok HV Hc a d1; have St := stable_copied h d mu sigma.
have [E1 E2 E3 E4 E5] := next_addr (size h).
rewrite deref_copied; case: ltnP => [_ /Hok|_]; first exact: fields_ok_stable St.
do 2![case: eqP => // _]; case: eqP => // _ [<-].
exists V, mu, sigma; split=> //=; first exact: stable_list St HV.
  by rewrite deref_copied ltnn eqxx.
by rewrite deref_copied E1 E3 eqxx.
Qed.

Lemma consistent_init V (m s : array_like F) :
  size (ravel m) = size V -> rectangular s ->
  shape (np_matrix s) = (size V, size V) ->
  consistent (DistValue V (Matrix (size V) 1 [seq [:: x] | x <- ravel m])
                        (np_matrix s) None).
Proof.
move=> Hr Hs Hsh; apply/and4P; split=> /=.
- by rewrite /wf_matrix /= size_map Hr eqxx /=; apply/allP => r /mapP[x _ ->].
- by [].
- by case: s Hs {Hsh} => [xs|ms] //= _; rewrite /wf_matrix /= !eqxx.
- by rewrite Hsh.
Qed.

Lemma dims_ok_init h vs (m s : array_like F) :
  rectangular s -> dims_ok h -> dims_ok (__init__ vs m s h).2.
Proof.
move=> Rs Hok; case EV: (deref h vs) => [|V| |];
  try by rewrite /__init__ /bind /get_list EV.
case El: (len m == size V); last first.
  by rewrite /__init__ /bind /get_list EV /= El.
case Er: (size (ravel m) == size V); last first.
  by rewrite /__init__ /bind /get_list EV /= El /= /np_reshape_n1 Er.
case Es: (shape (np_matrix s) == (size V, size V)); last first.
  rewrite /__init__ /bind /get_list EV /= El /= /np_reshape_n1 Er /= Es /=.
  by rewrite -!cats1 -catA; apply: dims_ok_cat.
have Em : np_reshape_n1 m (size V) =
          Some (Matrix (size V) 1 [seq [:: x] | x <- ravel m]).
  by rewrite /np_reshape_n1 Er.
rewrite (init_run EV (eqP El) Em (eqP Es)) /=.
rewrite -/(copied_heap h (MkJGD vs 0 0 None) _ _).
apply: dims_ok_copied => //; first exact: EV.
exact: consistent_init (eqP Er) Rs (eqP Es).
Qed.

Lemma dims_ok_copy h self : dims_ok h -> dims_ok (copy self h).2.
Proof.
move=> Hok; case Ed: (deref h self) => [| | |d];
  try by rewrite /copy /bind /get_jgd Ed.
have [V [mu [sigma [HV Hm Hs Hc]]]] := Hok _ _ Ed.
have /and4P[/= wfm /eqP shm wfs /eqP shs] := Hc.
rewrite (copy_run Ed HV Hm Hs wfm shm shs) /=.
exact: dims_ok_copied Hok HV Hc.
Qed.

Lemma dims_ok_precision_matrix (inv : matrix -> option matrix) h self :
  dims_ok h -> dims_ok (precision_matrix inv self h).2.
Proof.
move=> Hok; case Ed: (deref h self) => [| | |d];
  try by rewrite /precision_matrix /bind /get_jgd Ed.
case Ep: (_precision_matrix d) => [p|].
  by rewrite (precision_matrix_hit inv Ed Ep).
case Es: (deref h (covariance_matrix d)) => [| |sigma|];
  try by rewrite /precision_matrix /bind /get_jgd Ed Ep /get_matrix Es.
rewrite (precision_matrix_miss inv Ed Ep Es).
case: (inv sigma) => [P|] //=; rewrite -/(cached_heap h self d P).
have Hself : self < size h by apply: deref_obj_lt; rewrite Ed.
have St : stable h (cached_heap h self d P).
  move=> b; rewrite deref_cached //; case E: (deref h b) => [|s|m|d0] //;
    rewrite (@deref_obj_lt _ _ h b) ?E //; case: eqP => // Eb;
    by rewrite Eb Ed in E.
move=> a d1; rewrite deref_cached //; case: ltnP => [Ha|_]; last by case: eqP.
case: eqP => [_ [<-]|_ /Hok]; last exact: fields_ok_stable St.
by apply: (@fields_ok_eq _ d) => //; apply: fields_ok_stable St (Hok _ _ Ed).
Qed.

Lemma dims_ok_marginalized h a V' (mu' sigma' : matrix) :
  dims_ok h -> is_jgd (deref h a) ->
  consistent (DistValue V' mu' sigma' None) ->
  dims_ok (marginalized_heap h a V' mu' sigma').
Proof.
move=> Hok Ja Hc.
have Ha : a < size h by apply: deref_obj_lt; case: (deref h a) Ja.
have [E1 E2 E3 E4 E5] := next_addr (size h).
have St : stable h (marginalized_heap h a V' mu' sigma').
  move=> b; rewrite deref_marginalized //; case E: (deref h b) => [|s|m|d0] //;
    rewrite (@deref_obj_lt _ _ h b) ?E //; case: eqP => // Eb;
    by rewrite -Eb E in Ja.
move=> b d1; rewrite deref_marginalized //; case: ltnP => [Hb|_]; last first.
  by do 3![case: eqP => // _].
case: eqP => [_ [<-]|_ /Hok]; last exact: fields_ok_stable St.
exists V', mu', sigma'; split=> //=.
- by rewrite deref_marginalized // ltnn eqxx.
- by rewrite deref_marginalized // E1 E3 eqxx.
- by rewrite deref_marginalized // E2 E4 E5 eqxx.
Qed.

Lemma dims_ok_marginalize_body h self a R (ip : bool) (s d : JGD) :
  dims_ok h -> deref h self = PyJGD _ _ s -> deref h a = PyJGD _ _ d ->
  variables d = variables s ->
  dims_ok (marginalize_body (F:=F) self R ip a h).2.
Proof.
move=> Hok Hs Hd Ev; have [V [mu [sigma [HV Hm Hsg Hc]]]] := Hok _ _ Hd.
have /and4P[/= /andP[/eqP Hrm _] /eqP[Enm _] wfs /eqP shs] := Hc.
case HR: (all (mem V) R); last first.
  by rewrite /marginalize_body /bind /get_jgd Hd /get_list HV omapM_list_index HR.
have HVs : deref h (variables s) = PyList _ V by rewrite -Ev.
rewrite (marginalize_body_run ip Hd HV Hm Hsg Hs HVs erefl Hrm Enm wfs shs HR) /=.
apply: dims_ok_marginalized => //; first by rewrite Hd.
by apply: consistent_mask Hc; rewrite size_map size_iota.
Qed.

Lemma dims_ok_marginalize h self arg inplace :
  dims_ok h -> dims_ok (marginalize self arg inplace h).2.
Proof.
case: arg => [s|R] // Hok; rewrite marginalizeE /bind.
case Ed: (deref h self) => [| | |d]; case: inplace => /=;
  try by rewrite /marginalize_body /bind /get_jgd Ed.
- by rewrite /copy /bind /get_jgd Ed.
- by rewrite /copy /bind /get_jgd Ed.
- by rewrite /copy /bind /get_jgd Ed.
- exact: (@dims_ok_marginalize_body h self self R true d d Hok Ed Ed erefl).
have [V [mu [sigma [HV Hm Hs Hc]]]] := Hok _ _ Ed.
have /and4P[/= wfm /eqP shm wfs /eqP shs] := Hc.
rewrite (copy_run Ed HV Hm Hs wfm shm shs).
have Hself : self < size h by apply: deref_obj_lt; rewrite Ed.
have [E1 E2 E3 E4 E5] := next_addr (size h).
apply: (@dims_ok_marginalize_body _ self (size h).+2 R false d
          (MkJGD (variables d) (size h) (size h).+1 (_precision_matrix d))) => //.
- exact: dims_ok_copied Hok HV Hc.
- by rewrite deref_copied Hself.
- by rewrite deref_copied E2 E4 E5 eqxx.
Qed.

Lemma dims_ok_run_call (inv : matrix -> option matrix) c h :
  rectangular_call c -> dims_ok h -> dims_ok (run_call inv c h).
Proof.
case: c => [xs|vs m s|self|self arg ip|self] /= Hc Hok.
- by rewrite -cats1; apply: dims_ok_cat.
- by case/andP: Hc => _ Rs; apply: dims_ok_init.
- exact: dims_ok_precision_matrix.
- exact: dims_ok_marginalize.
- exact: dims_ok_copy.
Qed.

Lemma reachable_run_calls (inv : matrix -> option matrix) cs h :
  reachable inv h -> reachable inv (run_calls inv cs h).
Proof.
by elim: cs h => [|c cs IH] h Hh //=; apply: IH; apply: reachable_call.
Qed.

Lemma dims_ok_run_calls (inv : matrix -> option matrix) cs h :
  all (@rectangular_call ident F) cs -> dims_ok h -> dims_ok (run_calls inv cs h).
Proof.
elim: cs h => [|c cs IH] h //= /andP[Hc Hcs] Hok.
by apply: IH => //; apply: dims_ok_run_call.
Qed.

(** X8: in every store built from the empty one by calls of the public
    operations, the arrays passed to the constructor being rectangular,
    every instance denotes a distribution whose dimensions agree: [n]
    variables, an [n x 1] mean and an [n x n] covariance. *)
Theorem dimension_invariant (inv : matrix -> option matrix)
    (cs : seq (call ident F)) a :
  all (@rectangular_call ident F) cs -> is_jgd (deref (run_calls inv cs [::]) a) ->
  exists2 v, view (run_calls inv cs [::]) a = Some v & consistent v.
Proof.
move=> Hcs; set h := run_calls inv cs [::].
have Hdims : dims_ok h.
  by apply: dims_ok_run_calls => // b d; rewrite /deref nth_nil.
have Hcache : heap_ok inv h.
  by apply/heap_ok_reachable/reachable_run_calls/reachable_empty.
case Ed: (deref h a) => [| | |d] // _.
have [V [mu [sigma [HV Hm Hs Hc]]]] := Hdims _ _ Ed.
case Ep: (_precision_matrix d) => [p|].
  have [P [S [HP _ _]]] := Hcache _ _ Ed _ Ep.
  exists (DistValue V mu sigma (Some P)) => //.
  by apply: (view_intro Ed) => //; rewrite Ep /= HP.
exists (DistValue V mu sigma None) => //.
by apply: (view_intro Ed) => //; rewrite Ep.
Qed.

(** *** The outcome of [marginalize] *)

(** [marginalize] on a consistent distribution whose variables need not be
    distinct: the positions kept are those that are not the first
    occurrence of a target. *)
Lemma marginalize_run_positions h self d V (mu sigma : matrix) R inplace :
  deref h self = PyJGD _ _ d ->
  deref h (variables d) = PyList _ V ->
  deref h (mean_vector d) = PyMatrix _ mu ->
  deref h (covariance_matrix d) = PyMatrix _ sigma ->
  consistent (DistValue V mu sigma None) -> all (mem V) R ->
  let b := [seq i \notin [seq index x V | x <- R] | i <- iota 0 (size V)] in
  marginalize self (PySeq R) inplace h =
  (Return (if inplace then None else Some (size h).+2),
   marginalized_heap (if inplace then h else copied_heap h d mu sigma)
     (if inplace then self else (size h).+2)
     (mask b V) (sub_vector b mu) (principal_submatrix b sigma)).
Proof.
move=> Hd HV Hm Hs Hcons HR b.
have /and4P[wfm /eqP shm wfs /eqP shs] := Hcons.
have /andP[/eqP Hrm _] := wfm; have [Enm Ecm] := shm.
rewrite marginalizeE /bind; case: inplace; rewrite /ret /=.
  exact: (marginalize_body_run _ Hd HV Hm Hs Hd HV).
rewrite (copy_run Hd HV Hm Hs wfm shm shs).
have [E1 E2 E3 E4 E5] := next_addr (size h).
have Hself : self < size h by apply: deref_obj_lt; rewrite Hd.
have HlV : variables d < size h by apply: deref_obj_lt; rewrite HV.
set hc := copied_heap _ _ _ _.
set c := MkJGD (variables d) (size h) (size h).+1 (_precision_matrix d).
have Hc : deref hc (size h).+2 = PyJGD _ _ c.
  by rewrite deref_copied E2 E4 E5 eqxx.
have HVc : deref hc (variables c) = PyList _ V by rewrite deref_copied HlV.
have Hmc : deref hc (mean_vector c) = PyMatrix _ mu.
  by rewrite deref_copied ltnn eqxx.
have Hsc : deref hc (covariance_matrix c) = PyMatrix _ sigma.
  by rewrite deref_copied /= E1 E3 eqxx.
have Hd' : deref hc self = PyJGD _ _ d by rewrite deref_copied Hself.
exact: (marginalize_body_run _ Hc HVc Hmc Hsc Hd' HVc).
Qed.

Lemma marginalize_unknown_raises h self v R inplace :
  view h self = Some v -> ~~ all (mem (vars v)) R ->
  (marginalize self (PySeq R) inplace h).1 = Raise ValueError.
Proof.
move=> Hv HR; case: inplace; first by rewrite (marginalize_unknown_inplace Hv HR).
have [d [Hd HV Hm Hs _]] := view_inv Hv.
rewrite marginalizeE /bind.
have [[t -> _]|[mu' ->]] //= := copy_cases Hd HV Hm Hs.
have [E1 E2 E3 E4 E5] := next_addr (size h).
have HlV : variables d < size h by apply: deref_obj_lt; rewrite HV.
rewrite /marginalize_body /bind /get_jgd deref_copied E2 E4 E5 eqxx /=.
by rewrite /get_list deref_copied HlV HV omapM_list_index (negbTE HR).
Qed.

(** X9: on a distribution of consistent dimensions, distinct names or
    not, [marginalize] returns exactly when it is given a sequence of
    variables of the distribution; a string makes it raise [TypeError], a
    sequence with an unknown identifier [ValueError], and it raises nothing
    else: no index is ever out of range. *)
Theorem marginalize_outcome h self v arg inplace :
  view h self = Some v -> consistent v ->
  returns (marginalize self arg inplace h).1 =
    (if arg is PySeq R then all (mem (vars v)) R else false) /\
  (forall e, (marginalize self arg inplace h).1 = Raise e ->
     e = if arg is PyStr _ then TypeError else ValueError).
Proof.
move=> Hv Hc; case: arg => [s|R]; first by split=> // e [].
change (returns (marginalize self (PySeq R) inplace h).1 = all (mem (vars v)) R /\
        forall e, (marginalize self (PySeq R) inplace h).1 = Raise e ->
                  e = ValueError).
case HR: (all (mem (vars v)) R); last first.
  by rewrite (marginalize_unknown_raises inplace Hv (negbT HR)); split=> // e [].
have [d [Hd HV Hm Hs _]] := view_inv Hv.
have Hc' : consistent (DistValue (vars v) (mean v) (cov v) None) by case: v Hc {Hv HV Hm Hs HR}.
by rewrite (marginalize_run_positions inplace Hd HV Hm Hs Hc' HR).
Qed.

(** *** Shared and fresh objects *)

Lemma init_inv h l V (m s : array_like F) self h' :
  deref h l = PyList _ V -> __init__ l m s h = (Return self, h') ->
  [/\ len m = size V, size (ravel m) = size V,
      shape (np_matrix s) = (size V, size V), self = (size h).+2
    & h' = copied_heap h (MkJGD l 0 0 None)
             (Matrix (size V) 1 [seq [:: x] | x <- ravel m]) (np_matrix s)].
Proof.
move=> HV; case El: (len m == size V); last first.
  by rewrite /__init__ /bind /get_list HV /= El.
case Er: (size (ravel m) == size V); last first.
  by rewrite /__init__ /bind /get_list HV /= El /= /np_reshape_n1 Er.
case Es: (shape (np_matrix s) == (size V, size V)); last first.
  by rewrite /__init__ /bind /get_list HV /= El /= /np_reshape_n1 Er /= Es.
have Em : np_reshape_n1 m (size V) =
          Some (Matrix (size V) 1 [seq [:: x] | x <- ravel m]).
  by rewrite /np_reshape_n1 Er.
rewrite (init_run HV (eqP El) Em (eqP Es)) => -[<- <-].
by split=> //; apply/eqP.
Qed.

(** X10: the constructor keeps the very list it was given.  After a
    successful construction from the list at [l], an assignment
    [lst[i] = x] to that list by the caller shows in the variables of the
    distribution, whose mean and covariance stay as they are. *)
Theorem init_shares_variables h l V (m s : array_like F) self h' i x :
  deref h l = PyList _ V -> __init__ l m s h = (Return self, h') ->
  i < size V ->
  exists mu sigma,
    view h' self = Some (DistValue V mu sigma None) /\
    view (list_setitem l i x h').2 self =
    Some (DistValue (set_nth x V i x) mu sigma None).
Proof.
move=> HV Hinit Hi; have [_ _ _ -> ->] := init_inv HV Hinit.
set mu := Matrix _ _ _; set sigma := np_matrix s.
set hc := copied_heap _ _ _ _.
have [E1 E2 E3 E4 E5] := next_addr (size h).
have Hl : l < size h by apply: deref_obj_lt; rewrite HV.
have Hd : deref hc (size h).+2 = PyJGD _ _ (MkJGD l (size h) (size h).+1 None).
  by rewrite deref_copied E2 E4 E5 eqxx.
have HVc : deref hc l = PyList _ V by rewrite deref_copied Hl.
have Hmc : deref hc (size h) = PyMatrix _ mu by rewrite deref_copied ltnn eqxx.
have Hsc : deref hc (size h).+1 = PyMatrix _ sigma.
  by rewrite deref_copied E1 E3 eqxx.
exists mu, sigma; split; first exact: (view_intro Hd).
rewrite /list_setitem HVc Hi /mutate /=.
apply: (@view_intro _ _ _ _ (MkJGD l (size h) (size h).+1 None)) => //=.
- by rewrite deref_set_nth gtn_eqF ?Hd // !ltnS ltnW // ltnW.
- by rewrite deref_set_nth eqxx.
- by rewrite deref_set_nth gtn_eqF.
- by rewrite deref_set_nth gtn_eqF // ltnS ltnW.
Qed.

(** X11: after [marginalize] in place the receiver refers to new objects
    only: whatever is then done to an object that existed before the call,
    the instance itself apart, the receiver still denotes the marginal.  In
    particular it no longer shares its list of variables with the caller or
    with a copy. *)
Theorem marginalize_rebinds h self v R a o :
  view h self = Some v -> wf_dist v -> all (mem (vars v)) R ->
  a < size h -> a != self ->
  view (mutate a o (marginalize self (PySeq R) true h).2).2 self =
  Some (marginal v R).
Proof.
move=> Hv wfv HR Ha Na; have [d [Hd HV Hm Hs _]] := view_inv Hv.
have Hself : self < size h by apply: deref_obj_lt; rewrite Hd.
rewrite (marginalize_run true Hd HV Hm Hs wfv HR) /marginalize_heap /mutate /=.
have [E1 E2 E3 E4 E5] := next_addr (size h).
apply: (@view_intro _ _ _ _ (MkJGD (size h) (size h).+1 (size h).+2 None)) => //=.
- by rewrite deref_set_nth eq_sym (negbTE Na) deref_marginalized // Hself eqxx.
- by rewrite deref_set_nth gtn_eqF // deref_marginalized // ltnn eqxx.
- by rewrite deref_set_nth gtn_eqF ?ltnS 1?ltnW // deref_marginalized // E1 E3 eqxx.
- rewrite deref_set_nth gtn_eqF ?ltnS 1?ltnW // 1?ltnW //.
  by rewrite deref_marginalized // E2 E4 E5 eqxx.
Qed.

(** X12: a copy made after the precision matrix was computed holds the
    same cached object as the original: [precision_matrix] on either
    returns that object, without calling [np.linalg.inv] and without
    changing the store. *)
Theorem copy_shares_cache (inv : matrix -> option matrix) h self d p c h' :
  deref h self = PyJGD _ _ d -> _precision_matrix d = Some p ->
  copy self h = (Return c, h') ->
  precision_matrix inv self h' = (Return p, h') /\
  precision_matrix inv c h' = (Return p, h').
Proof.
move=> Hd Hp /copy_inv[d' [mu [sigma [Hd' -> ->]]]].
move: Hd'; rewrite Hd => -[<-].
have Hself : self < size h by apply: deref_obj_lt; rewrite Hd.
have [E1 E2 E3 E4 E5] := next_addr (size h).
split.
  by apply: (@precision_matrix_hit _ _ _ _ _ d) => //; rewrite deref_copied Hself.
apply: (@precision_matrix_hit _ _ _ _ _
          (MkJGD (variables d) (size h) (size h).+1 (_precision_matrix d))) => //.
by rewrite deref_copied E2 E4 E5 eqxx.
Qed.

(** *** The array-likes the constructor accepts *)

(** X13: the mean may be given flat or as a column: the constructor does
    the same, result and store, with the one-dimensional array [xs] and
    with the [n x 1] array of the same scalars. *)
Theorem init_flat_mean l (xs : seq F) (s : array_like F) h :
  __init__ l (Array1 xs) s h =
  __init__ l (Array2 (Matrix (size xs) 1 [seq [:: x] | x <- xs])) s h.
Proof. by rewrite /__init__ /np_reshape_n1 /= flatten_seq1. Qed.

(** X14: construction with an empty list of variables.  A covariance
    that [np.matrix] turns into a matrix with at least one row is refused
    with [ValueError], whatever the mean; this includes every
    one-dimensional array, the empty one too, which becomes a [1 x 0]
    matrix.  With the empty mean and the [0 x 0] covariance the constructor
    builds the zero-dimensional distribution. *)
Theorem init_no_variables h l :
  deref h l = PyList _ [::] ->
  (forall (m s : array_like F), nrows (np_matrix s) != 0%N ->
     (__init__ l m s h).1 = Raise ValueError) /\
  view (__init__ l (Array1 [::]) (Array2 (Matrix 0 0 [::])) h).2 (size h).+2 =
  Some (DistValue [::] (Matrix 0 1 [::]) (Matrix 0 0 [::]) None).
Proof.
move=> HV; split=> [m s Hs|].
  rewrite /__init__ /bind /get_list HV /=.
  case: (len m == 0%N) => //=; rewrite /np_reshape_n1.
  case: (size (ravel m) == 0%N) => //=.
  by case: (np_matrix s) Hs => [[|r] c rs].
have Em : np_reshape_n1 (Array1 [::] : array_like F) (size ([::] : seq ident)) =
          Some (Matrix 0 1 [::]) by [].
rewrite (@init_run _ _ h l [::] (Array1 [::]) (Array2 (Matrix 0 0 [::])) _
           HV erefl Em erefl) /=.
rewrite -/(copied_heap h (MkJGD l 0 0 None) _ _).
have [E1 E2 E3 E4 E5] := next_addr (size h).
have Hl : l < size h by apply: deref_obj_lt; rewrite HV.
apply: (@view_intro _ _ _ _ (MkJGD l (size h) (size h).+1 None)) => //=.
- by rewrite deref_copied E2 E4 E5 eqxx.
- by rewrite deref_copied Hl.
- by rewrite deref_copied ltnn eqxx.
- by rewrite deref_copied E1 E3 eqxx.
Qed.

(** *** Variables that are not distinct *)

Lemma rem_mask (x : ident) V k :
  x \in V ->
  mask [seq i != (index x V + k)%N | i <- iota k (size V)] V = rem x V.
Proof.
elim: V k => [|y V IH] k //=; rewrite inE eq_sym.
case: (y =P x) => [_ _|_ /= xV].
  rewrite add0n eqxx /=.
  have -> : [seq i != k | i <- iota k.+1 (size V)] = [seq true | _ <- iota k.+1 (size V)].
    by apply/eq_in_map => i; rewrite mem_iota => /andP[Hi _]; rewrite gtn_eqF.
  by rewrite mask_every // size_iota.
rewrite addSn ltn_eqF ?ltnS ?leq_addl //=.
by rewrite -addnS IH.
Qed.

(** X15: what [marginalize] does when the names of the variables are not
    distinct, which the constructor does not check.  The positions removed
    are the first positions of the targets, as [list.index] finds them: the
    variables, the rows of the mean and the rows and columns of the
    covariance at all other positions are kept.  Removing one name [x]
    removes the first [x] from the variables and keeps the others. *)
Theorem marginalize_repeated_names h self v R inplace :
  view h self = Some v -> consistent v -> all (mem (vars v)) R ->
  let b := [seq i \notin [seq index x (vars v) | x <- R]
           | i <- iota 0 (size (vars v))] in
  marginalize_result h self R inplace =
  Some (DistValue (mask b (vars v)) (sub_vector b (mean v))
                  (principal_submatrix b (cov v)) None) /\
  (forall x, x \in vars v ->
     omap (@vars _ _) (marginalize_result h self [:: x] inplace) =
     Some (rem x (vars v))).
Proof.
move=> Hv Hc HR b; have [d [Hd HV Hm Hs _]] := view_inv Hv.
have Hc' : consistent (DistValue (vars v) (mean v) (cov v) None).
  by case: (v) Hc.
have Hself : self < size h by apply: deref_obj_lt; rewrite Hd.
have run R0 : all (mem (vars v)) R0 ->
    marginalize_result h self R0 inplace =
    Some (DistValue
            (mask [seq i \notin [seq index x (vars v) | x <- R0]
                  | i <- iota 0 (size (vars v))] (vars v))
            (sub_vector [seq i \notin [seq index x (vars v) | x <- R0]
                        | i <- iota 0 (size (vars v))] (mean v))
            (principal_submatrix
               [seq i \notin [seq index x (vars v) | x <- R0]
               | i <- iota 0 (size (vars v))] (cov v)) None).
  move=> HR0; rewrite /marginalize_result.
  rewrite (marginalize_run_positions inplace Hd HV Hm Hs Hc' HR0).
  by case: inplace => /=; rewrite view_marginalized // size_copied.
split; first exact: run.
move=> x xV; rewrite run /= ?xV //; congr Some.
rewrite -[RHS](@rem_mask x (vars v) 0) // addn0.
by congr mask; apply: eq_map => i; rewrite inE.
Qed.

(** *** What the operations never touch *)

Lemma init_extends h l (m s : array_like F) :
  exists t, (__init__ l m s h).2 = h ++ t.
Proof.
rewrite /__init__ /bind /get_list.
case: (deref h l) => [|V|?|?] /=; try by exists [::]; rewrite cats0.
case: (len m != size V) => /=; first by exists [::]; rewrite cats0.
rewrite /np_reshape_n1; case: (size (ravel m) == size V) => /=; last first.
  by exists [::]; rewrite cats0.
by case: (shape _ != _) => /=; rewrite -!cats1 -!catA; eexists.
Qed.

Lemma copy_extends h self : exists t, (copy self h).2 = h ++ t.
Proof.
case E: (copy self h) => [[c|e] h1] /=.
  have [d [mu [sigma [_ _ ->]]]] := copy_inv E.
  by rewrite copied_heap_cat; eexists.
move: E; rewrite /copy /bind /get_jgd.
case: (deref h self) => [|?|?|d]; try by case=> _ <-; exists [::]; rewrite cats0.
rewrite /get_matrix.
case: (deref h (mean_vector d)) => [|?|mu|?];
  try by case=> _ <-; exists [::]; rewrite cats0.
case: (deref h (covariance_matrix d)) => [|?|sigma|?];
  try by case=> _ <-; exists [::]; rewrite cats0.
have [t] := init_extends h (variables d) (Array2 mu) (Array2 sigma).
case: (__init__ _ _ _ h) => [[c|e'] h2] /= ->; last by case=> _ <-; exists t.
by rewrite /setattr; case: (deref _ c) => [|?|?|dc] //= [_ <-]; exists t.
Qed.

(** X16: which existing objects an operation can change, in any store and
    whether it returns or raises: the constructor, [copy] and [marginalize]
    with [inplace=False] change none; [marginalize] in place and
    [precision_matrix] change none but the receiver. *)
Theorem operations_frame (inv : matrix -> option matrix) h self l
    (m s : array_like F) arg b :
  b < size h ->
  [/\ deref (__init__ l m s h).2 b = deref h b,
      deref (copy self h).2 b = deref h b,
      deref (marginalize self arg false h).2 b = deref h b,
      b != self -> deref (marginalize self arg true h).2 b = deref h b
    & b != self -> deref (precision_matrix inv self h).2 b = deref h b].
Proof.
move=> Hb; split.
- by have [t ->] := init_extends h l m s; rewrite deref_cat.
- by have [t ->] := copy_extends h self; rewrite deref_cat.
- case: arg => [x|R] //; rewrite marginalizeE /bind.
  case E: (copy self h) => [[c|e] h1] /=; last first.
    by have [t] := copy_extends h self; rewrite E /= => ->; rewrite deref_cat.
  have [d [mu [sigma [_ Ec Eh]]]] := copy_inv E.
  have [Hsz Hold] := only_at_marginalize_body self R false c h1.
  have Hb1 : b < size h1 by rewrite Eh size_copied; do 3!apply: ltnW.
  have Nb : b != c by rewrite Ec ltn_eqF //; do 2!apply: ltnW.
  by rewrite (Hold _ Hb1 Nb) Eh deref_copied Hb.
- by move=> Nb; have [_ ->] := only_at_marginalize self arg h.
- by move=> Nb; have [_ ->] := only_at_precision_matrix inv self h.
Qed.

End Further.

(** *** Positive semi-definite covariances *)

Section DefiniteProperties.

Import order ssrnum.
Import Order.TTheory Num.Theory.

Variable ident : eqType.
Variable F : realFieldType.

Implicit Types (m : matrix F) (I : seq nat).





End DefiniteProperties.

(** ** The further properties, on the examples *)

Example ex_cov_symmetric : symmetric ex_cov.
Proof.
by move=> [|[|[|i]]] [|[|[|j]]] //=; rewrite /entry /= ?nth_nil.
Qed.

Example ex_cached_view :
  view ex_cached_heap 3 =
  Some (DistValue ex_variables ex_mean ex_cov (Some ex_precision)).
Proof. by []. Qed.

Lemma dimension_invariant_witness :
  [/\ all (@rectangular_call string rat) ex_calls,
      is_jgd (deref (run_calls (@exact_inv rat) ex_calls [::]) 3)
    & exists2 v, view (run_calls (@exact_inv rat) ex_calls [::]) 3 = Some v &
                 consistent v].
Proof.
split; [by [] | by [] |].
exact: (@dimension_invariant _ _ (@exact_inv rat) ex_calls 3).
Defined.

Lemma marginalize_outcome_witness :
  [/\ view ex_heap 3 = Some ex_value, consistent ex_value
    & returns (marginalize 3 (PySeq [:: "x3"%string]) true ex_heap).1 =
        all (mem (vars ex_value)) [:: "x3"%string] /\
      (forall e, (marginalize 3 (PySeq [:: "x3"%string]) true ex_heap).1 = Raise e ->
         e = ValueError)].
Proof.
split; [by [] | by [] |].
exact: (@marginalize_outcome _ _ ex_heap 3 ex_value (PySeq [:: "x3"%string]) true).
Defined.

Lemma marginalize_repeated_names_witness :
  [/\ view dup_heap 3 = Some dup_value, consistent dup_value,
      all (mem (vars dup_value)) [:: "a"%string]
    & marginalize_result dup_heap 3 [:: "a"%string] true =
      Some (DistValue
              (mask [seq i \notin [seq index x (vars dup_value) | x <- [:: "a"%string]]
                    | i <- iota 0 (size (vars dup_value))] (vars dup_value))
              (sub_vector
                 [seq i \notin [seq index x (vars dup_value) | x <- [:: "a"%string]]
                 | i <- iota 0 (size (vars dup_value))] (mean dup_value))
              (principal_submatrix
                 [seq i \notin [seq index x (vars dup_value) | x <- [:: "a"%string]]
                 | i <- iota 0 (size (vars dup_value))] (cov dup_value)) None) /\
      (forall x, x \in vars dup_value ->
         omap (@vars _ _) (marginalize_result dup_heap 3 [:: x] true) =
         Some (rem x (vars dup_value)))].
Proof.
split; [by [] | by [] | by [] |].
exact: (@marginalize_repeated_names _ _ dup_heap 3 dup_value [:: "a"%string] true).
Defined.

Lemma marginalize_dimension_witness :
  [/\ view ex_heap 3 = Some ex_value, wf_dist ex_value,
      all (mem (vars ex_value)) [:: "x3"%string]
    & exists2 w, marginalize_result ex_heap 3 [:: "x3"%string] true = Some w &
        wf_dist w /\
        size (vars w) = (size (vars ex_value) - size (undup [:: "x3"%string]))%N].
Proof.
split; [by [] | by [] | by [] |].
exact: (@marginalize_dimension _ _ ex_heap 3 ex_value [:: "x3"%string] true).
Defined.

Lemma marginalize_by_name_witness :
  [/\ view ex_heap 3 = Some ex_value, wf_dist ex_value,
      all (mem (vars ex_value)) [:: "x3"%string]
    & exists2 w, marginalize_result ex_heap 3 [:: "x3"%string] true = Some w &
        (forall x, (x \in vars w) =
                   (x \in vars ex_value) && (x \notin [:: "x3"%string])) /\
        (forall x y, x \in vars w -> y \in vars w ->
           mean_of w x = mean_of ex_value x /\
           cov_of w x y = cov_of ex_value x y)].
Proof.
split; [by [] | by [] | by [] |].
exact: (@marginalize_by_name _ _ ex_heap 3 ex_value [:: "x3"%string] true).
Defined.

Lemma marginalize_symmetric_witness :
  [/\ view ex_heap 3 = Some ex_value, wf_dist ex_value,
      all (mem (vars ex_value)) [:: "x3"%string], symmetric (cov ex_value)
    & exists2 w, marginalize_result ex_heap 3 [:: "x3"%string] true = Some w &
                 symmetric (cov w)].
Proof.
split; [by [] | by [] | by [] | exact: ex_cov_symmetric |].
exact: (@marginalize_symmetric _ _ ex_heap 3 ex_value [:: "x3"%string] true
          ex_view ex_wf isT ex_cov_symmetric).
Defined.

Lemma marginalize_compose_witness :
  [/\ view ex_heap 3 = Some ex_value, wf_dist ex_value,
      all (mem (vars ex_value)) [:: "x3"%string] /\
      all (mem (vars ex_value)) [:: "x1"%string],
      ~~ has (mem [:: "x3"%string]) [:: "x1"%string]
    & let after R := (marginalize 3 (PySeq R) true ex_heap).2 in
      [/\ marginalize_result (after [:: "x3"%string]) 3 [:: "x1"%string] true =
          Some (marginal ex_value ([:: "x3"%string] ++ [:: "x1"%string])),
          marginalize_result ex_heap 3 ([:: "x3"%string] ++ [:: "x1"%string]) true =
          Some (marginal ex_value ([:: "x3"%string] ++ [:: "x1"%string]))
        & marginalize_result (after [:: "x1"%string]) 3 [:: "x3"%string] true =
          marginalize_result (after [:: "x3"%string]) 3 [:: "x1"%string] true]].
Proof.
split; [by [] | by [] | by [] | by [] |].
exact: (@marginalize_compose _ _ ex_heap 3 ex_value [:: "x3"%string]
          [:: "x1"%string] true).
Defined.

Lemma marginalize_twice_witness :
  [/\ view ex_heap 3 = Some ex_value, wf_dist ex_value,
      all (mem (vars ex_value)) [:: "x3"%string],
      has (mem [:: "x3"%string]) [:: "x3"%string]
    & let h1 := (marginalize 3 (PySeq [:: "x3"%string]) true ex_heap).2 in
      view h1 3 = Some (marginal ex_value [:: "x3"%string]) /\
      marginalize 3 (PySeq [:: "x3"%string]) true h1 = (Raise ValueError, h1)].
Proof.
split; [by [] | by [] | by [] | by [] |].
exact: (@marginalize_twice _ _ ex_heap 3 ex_value [:: "x3"%string]
          [:: "x3"%string]).
Defined.

Lemma operations_frame_witness :
  (0 < size ex_heap)%N /\
  [/\ deref (__init__ 0 (Array2 ex_mean) (Array2 ex_cov) ex_heap).2 0 =
      deref ex_heap 0,
      deref (copy 3 ex_heap).2 0 = deref ex_heap 0,
      deref (marginalize 3 (PySeq [:: "x3"%string]) false ex_heap).2 0 =
      deref ex_heap 0,
      (0 != 3)%N ->
      deref (marginalize 3 (PySeq [:: "x3"%string]) true ex_heap).2 0 =
      deref ex_heap 0
    & (0 != 3)%N ->
      deref (precision_matrix (@exact_inv rat) 3 ex_heap).2 0 = deref ex_heap 0].
Proof.
split; first by [].
exact: (@operations_frame _ _ (@exact_inv rat) ex_heap 3 0 (Array2 ex_mean)
          (Array2 ex_cov) (PySeq [:: "x3"%string]) 0).
Defined.

Lemma precision_matrix_frame_witness :
  view ex_cached_heap 3 =
  Some (DistValue ex_variables ex_mean ex_cov (Some ex_precision)) /\
  ((exists2 p, view (precision_matrix (@exact_inv rat) 3 ex_cached_heap).2 3 =
               Some (DistValue ex_variables ex_mean ex_cov p) &
               3%N <> 3%N \/ Some ex_precision <> None -> p = Some ex_precision) /\
   (forall e, (precision_matrix (@exact_inv rat) 3 ex_cached_heap).1 = Raise e ->
              (precision_matrix (@exact_inv rat) 3 ex_cached_heap).2 =
              ex_cached_heap)).
Proof.
split; first by [].
exact: (@precision_matrix_frame _ _ (@exact_inv rat) ex_cached_heap 3 3 _
          ex_cached_view).
Defined.

Lemma init_shares_variables_witness :
  [/\ deref [:: PyList rat ex_variables] 0 = PyList _ ex_variables,
      __init__ 0 (Array2 ex_mean) (Array2 ex_cov) [:: PyList _ ex_variables] =
      (Return 3, ex_heap),
      (0 < size ex_variables)%N
    & exists mu sigma,
        view ex_heap 3 = Some (DistValue ex_variables mu sigma None) /\
        view (list_setitem 0 0 "y"%string ex_heap).2 3 =
        Some (DistValue (set_nth "y"%string ex_variables 0 "y"%string)
                        mu sigma None)].
Proof.
split; [by [] | by [] | by [] |].
exact: (@init_shares_variables _ _ [:: PyList rat ex_variables] 0 ex_variables
          (Array2 ex_mean) (Array2 ex_cov) 3 ex_heap 0 "y"%string).
Defined.

Lemma marginalize_rebinds_witness :
  [/\ view ex_heap 3 = Some ex_value, wf_dist ex_value,
      all (mem (vars ex_value)) [:: "x3"%string],
      (0 < size ex_heap)%N /\ (0 != 3)%N
    & view (mutate 0 (PyList rat [:: "y"%string])
              (marginalize 3 (PySeq [:: "x3"%string]) true ex_heap).2).2 3 =
      Some (marginal ex_value [:: "x3"%string])].
Proof.
split; [by [] | by [] | by [] | by [] |].
exact: (@marginalize_rebinds _ _ ex_heap 3 ex_value [:: "x3"%string] 0
          (PyList rat [:: "y"%string])).
Defined.

Lemma copy_shares_cache_witness :
  [/\ deref ex_cached_heap 3 = PyJGD _ _ (MkJGD 0 1 2 (Some 4)),
      _precision_matrix (MkJGD 0 1 2 (Some 4)) = Some 4,
      copy 3 ex_cached_heap = (Return 7, ex_cached_copy_heap)
    & precision_matrix (@exact_inv rat) 3 ex_cached_copy_heap =
      (Return 4, ex_cached_copy_heap) /\
      precision_matrix (@exact_inv rat) 7 ex_cached_copy_heap =
      (Return 4, ex_cached_copy_heap)].
Proof.
split; [by [] | by [] | by [] |].
exact: (@copy_shares_cache _ _ (@exact_inv rat) ex_cached_heap 3
          (MkJGD 0 1 2 (Some 4)) 4 7 ex_cached_copy_heap).
Defined.

Lemma init_no_variables_witness :
  deref no_variables_heap 0 = PyList _ [::] /\
  ((forall (m s : array_like rat), nrows (np_matrix s) != 0%N ->
      (__init__ 0 m s no_variables_heap).1 = Raise ValueError) /\
   view (__init__ 0 (Array1 [::]) (Array2 (Matrix 0 0 [::])) no_variables_heap).2
        (size no_variables_heap).+2 =
   Some (DistValue [::] (Matrix 0 1 [::]) (Matrix 0 0 [::]) None)).
Proof.
split; first by [].
exact: (@init_no_variables _ _ no_variables_heap 0).
Defined.

Section DefiniteExample.

Import order ssrnum.
Import Order.TTheory Num.Theory.



End DefiniteExample.
